(** * docsapi: crawl-and-index pipeline, embedded and verified

    A shallow embedding of the TypeScript sources of the preload pipeline:
    - [JsString]      the string operations of the JavaScript runtime the code calls;
    - [JsArray]       [Array.prototype.sort] (stable) and [slice];
    - [LocalDocs]     src/lib/local-docs.ts   (local search);
    - the modules that follow embed preload.ts, docset/preload.ts,
      preload-local.ts, preload-job-manager.ts and fetch.ts.

    Conventions of the embedding.
    - A JavaScript string is a [string]; case folding and white space are the
      ASCII ones.
    - A JavaScript number that the code uses as a count, an index, a score or a
      time stamp in milliseconds is a [Z] or a [nat]; a number that comes from
      a request body is a [JsNumber].
    - A function that can throw returns an [option] or a sum.
    - The disk is a finite map from file names to parsed file contents; a read
      fails when the file is absent. The writes of the documents of a site
      succeed; the writes of a job snapshot succeed or fail as the
      environment of the job manager says. *)

From Stdlib Require Import ZArith List String Ascii Lia Permutation QArith Qround DecimalString DecimalNat OrderedTypeEx.
From stdpp Require Import base gmap strings list sorting.

(** ** The JavaScript string operations used by the sources *)
Module JsString.

Definition isUpper (c : ascii) : bool :=
  let n := nat_of_ascii c in (65 <=? n) && (n <=? 90).

Definition lowerChar (c : ascii) : ascii :=
  if isUpper c then ascii_of_nat (nat_of_ascii c + 32) else c.

(** [String.prototype.toLowerCase] *)
Fixpoint toLowerCase (s : string) : string :=
  match s with
  | EmptyString => EmptyString
  | String c s' => String (lowerChar c) (toLowerCase s')
  end.

(** [s.startsWith(p)] *)
Fixpoint startsWith (s p : string) : bool :=
  match p with
  | EmptyString => true
  | String b p' =>
      match s with
      | EmptyString => false
      | String a s' => Ascii.eqb a b && startsWith s' p'
      end
  end.

(** [s.indexOf(q)] as a natural number, [None] for -1. *)
Fixpoint indexOfNat (s q : string) : option nat :=
  if startsWith s q then Some 0
  else match s with
       | EmptyString => None
       | String _ s' => option_map S (indexOfNat s' q)
       end.

(** [s.indexOf(q)] *)
Definition indexOf (s q : string) : Z :=
  match indexOfNat s q with
  | Some n => Z.of_nat n
  | None => (-1)%Z
  end.

(** [s.includes(q)]: the index of [q] in [s] is not -1. *)
Definition includes (s q : string) : bool :=
  match indexOfNat s q with
  | Some _ => true
  | None => false
  end.

(** [s.endsWith(p)] *)
Definition endsWith (s p : string) : bool :=
  (String.length p <=? String.length s) &&
  String.eqb (substring (String.length s - String.length p) (String.length p) s) p.

(** [s.slice(start, end)] for [0 <= start] and [0 <= end]. *)
Definition slice (s : string) (start end_ : nat) : string :=
  substring start (end_ - start) s.

(** The ASCII characters matched by [\s]. *)
Definition isSpace (c : ascii) : bool :=
  let n := nat_of_ascii c in
  (n =? 32) || ((9 <=? n) && (n <=? 13)).

Fixpoint trimStart (s : string) : string :=
  match s with
  | EmptyString => EmptyString
  | String c s' => if isSpace c then trimStart s' else s
  end.

(** Drops the white space at the end: a character is kept when it is not a
    space or when something is kept after it. *)
Fixpoint trimEnd (s : string) : string :=
  match s with
  | EmptyString => EmptyString
  | String c s' =>
      match trimEnd s' with
      | EmptyString => if isSpace c then EmptyString else String c EmptyString
      | t => String c t
      end
  end.

(** [s.trim()] *)
Definition trim (s : string) : string := trimEnd (trimStart s).

(** [s.replace(/\s+/g, " ")]: [inRun] tells that the previous character was
    white space, already replaced. *)
Fixpoint collapseFrom (inRun : bool) (s : string) : string :=
  match s with
  | EmptyString => EmptyString
  | String c s' =>
      if isSpace c
      then (if inRun then collapseFrom true s'
            else String " "%char (collapseFrom true s'))
      else String c (collapseFrom false s')
  end.

Definition collapseSpaces (s : string) : string := collapseFrom false s.

(** [a || b] on strings: the empty string is falsy. *)
Definition orElse (a b : string) : string :=
  match a with
  | EmptyString => b
  | _ => a
  end.

(** [s.split(/[...]/)] on the characters that satisfy [sep]. *)
Fixpoint splitOn (sep : ascii -> bool) (s : string) : list string :=
  match s with
  | EmptyString => [EmptyString]
  | String c s' =>
      if sep c then EmptyString :: splitOn sep s'
      else match splitOn sep s' with
           | [] => [String c EmptyString]
           | part :: parts => String c part :: parts
           end
  end.

(** [String(n)] for a natural number. *)
Definition ofNat (n : nat) : string := NilEmpty.string_of_uint (Nat.to_uint n).

Fixpoint repeatChar (n : nat) (c : ascii) : string :=
  match n with
  | O => EmptyString
  | S n' => String c (repeatChar n' c)
  end.

(** [s.padStart(width, c)] for a one-character filler. *)
Definition padStart (width : nat) (c : ascii) (s : string) : string :=
  repeatChar (width - String.length s) c +:+ s.

Definition isLowerAlnum (c : ascii) : bool :=
  let n := nat_of_ascii c in
  ((97 <=? n) && (n <=? 122)) || ((48 <=? n) && (n <=? 57)).

(** [s.replace(/[^a-z0-9]+/g, "-")]: [inRun] tells that the previous
    character was already replaced. *)
Fixpoint hyphenateFrom (inRun : bool) (s : string) : string :=
  match s with
  | EmptyString => EmptyString
  | String c s' =>
      if isLowerAlnum c then String c (hyphenateFrom false s')
      else if inRun then hyphenateFrom true s'
           else String "-"%char (hyphenateFrom true s')
  end.

Definition hyphenate (s : string) : string := hyphenateFrom false s.

(** [s.replace(/^-+/, "")] *)
Fixpoint stripLeadingHyphens (s : string) : string :=
  match s with
  | String "-"%char s' => stripLeadingHyphens s'
  | _ => s
  end.

(** [s.replace(/-+$/, "")] *)
Fixpoint stripTrailingHyphens (s : string) : string :=
  match s with
  | EmptyString => EmptyString
  | String c s' =>
      match stripTrailingHyphens s' with
      | EmptyString => if Ascii.eqb c "-"%char then EmptyString else String c EmptyString
      | t => String c t
      end
  end.

End JsString.

(** ** Arrays: the stable [sort] with a comparator, and JavaScript numbers *)
Module JsArray.

(** Inserts [x] before the first element it does not sort after: with [x]
    taken from the left of the elements of [l], equal elements keep their
    order. *)
Fixpoint insertBy {A : Type} (cmp : A -> A -> Z) (x : A) (l : list A) : list A :=
  match l with
  | [] => [x]
  | y :: l' => if (cmp x y <=? 0)%Z then x :: l else y :: insertBy cmp x l'
  end.

(** [Array.prototype.sort(cmp)]: a stable sort. *)
Fixpoint sortBy {A : Type} (cmp : A -> A -> Z) (l : list A) : list A :=
  match l with
  | [] => []
  | x :: l' => insertBy cmp x (sortBy cmp l')
  end.

(** [arr.find(p)] *)
Fixpoint find {A : Type} (p : A -> bool) (l : list A) : option A :=
  match l with
  | [] => None
  | x :: l' => if p x then Some x else find p l'
  end.

(** The elements of [l] without repetition, the first occurrence kept: the
    loop [if (seen.has(x)) continue; seen.add(x); out.push(x)]. *)
Fixpoint dedupeFrom (seen : gset string) (l : list string) : list string :=
  match l with
  | [] => []
  | x :: l' =>
      if decide (x ∈ seen) then dedupeFrom seen l'
      else x :: dedupeFrom ({[x]} ∪ seen) l'
  end.

End JsArray.

Module JsNumber.

(** A value of type [number]. *)
Inductive JsNumber : Type :=
| NaN
| PosInfinity
| NegInfinity
| Finite (q : Q).

(** [Number.isFinite(x)] for an optional number ([undefined] is [None]). *)
Definition isFinite (x : option JsNumber) : bool :=
  match x with
  | Some (Finite _) => true
  | _ => false
  end.

(** [Math.max(lo, Math.min(hi, Math.floor(x)))] for [x] that is not NaN. *)
Definition clampFloor (lo hi : Z) (x : JsNumber) : Z :=
  match x with
  | Finite q => Z.max lo (Z.min hi (Qfloor q))
  | PosInfinity => Z.max lo hi
  | NegInfinity => lo
  | NaN => lo
  end.

End JsNumber.

(** [String.prototype.localeCompare] of the host: negative, zero or positive. *)
Class Collation := localeCompare : string -> string -> Z.

(** ** The types of src/lib/preload.ts and the files of the local store *)
Module PreloadTypes.

Record PreloadItem := {
  item_path : string;
  item_url : string;
  item_docsetType : string;
  item_content : string
}.

Record PreloadDocSummary := {
  doc_id : string;
  doc_path : string;
  doc_url : string;
  doc_docsetType : string;
  doc_title : string;
  doc_description : string;
  doc_contentFile : string;
  doc_indexFile : string
}.

Record PreloadLinkIndexEntry := {
  link_title : string;
  link_url : string;
  link_description : string;
  link_localDocId : option string
}.

Record PreloadDocHeading := {
  heading_level : nat;
  heading_text : string
}.

Record PreloadSuggestedDoc := {
  sug_docId : string;
  sug_title : string;
  sug_path : string;
  sug_url : string;
  sug_contentFile : string;
  sug_indexFile : string;
  sug_overlapScore : Q;
  sug_sharedTerms : nat
}.

Record PreloadDocIndex := {
  idx_doc : PreloadDocSummary;
  idx_headings : list PreloadDocHeading;
  idx_links : list PreloadLinkIndexEntry;
  idx_suggested : option (list PreloadSuggestedDoc)
}.

(** Time stamps are ISO-8601 strings made by [toISOString]; they are kept as
    the milliseconds since the epoch they denote. *)
Record PreloadSiteIndex := {
  si_generatedAt : Z;
  si_baseUrl : string;
  si_totalDocs : nat;
  si_docs : list PreloadDocSummary
}.

Record PreloadBundle := {
  siteIndex : PreloadSiteIndex;
  docIndexes : gmap string PreloadDocIndex;
  docs : list PreloadItem
}.

Record LocalSitesIndexEntry := {
  site_slug : string;
  site_baseUrl : string;
  site_totalDocs : nat;
  site_updatedAt : Z
}.

(** The directory [local/]: each file by the directory of its site and its
    name, at the type it is written and parsed at; files of different kinds
    have different names ([site-index.json], [*.md], [*.index.json]). *)
Record Disk := {
  siteIndexFiles : gmap (string * string) PreloadSiteIndex;
  contentFiles : gmap (string * string) string;
  docIndexFiles : gmap (string * string) PreloadDocIndex;
  sitesIndexFile : option (list LocalSitesIndexEntry)
}.

End PreloadTypes.

(** ** src/lib/local-docs.ts *)
Module LocalDocs.
Import JsString JsArray JsNumber PreloadTypes.

Record LocalSearchResult := {
  res_slug : string;
  res_baseUrl : string;
  res_docId : string;
  res_title : string;
  res_path : string;
  res_url : string;
  res_docsetType : string;
  res_contentFile : string;
  res_titleMatch : bool;
  res_contentMatch : bool;
  res_snippet : string;
  res_score : Z
}.

Record SearchOptions := {
  opt_query : string;
  opt_slug : option string;
  opt_limit : option JsNumber
}.

Record SearchOutput := {
  out_query : string;
  out_totalResults : nat;
  out_searchedSlugs : list string;
  out_results : list LocalSearchResult
}.

Definition makeSnippet (content : string) (index : Z) (queryLength : nat) : string :=
  let radius := 110%Z in
  let len := Z.of_nat (String.length content) in
  let start := Z.max 0 (index - radius) in
  let end_ := Z.min len (index + Z.of_nat queryLength + radius) in
  let prefix := if (0 <? start)%Z then "..." else "" in
  let suffix := if (end_ <? len)%Z then "..." else "" in
  prefix +:+ trim (collapseSpaces (slice content (Z.to_nat start) (Z.to_nat end_))) +:+ suffix.

Definition computeSearchScore (title query : string) (contentIndex : Z) : Z :=
  let normalizedTitle := toLowerCase title in
  let score := 0%Z in
  let score := if String.eqb normalizedTitle query then (score + 120)%Z else score in
  let score := if startsWith normalizedTitle query then (score + 80)%Z else score in
  let score := if includes normalizedTitle query then (score + 40)%Z else score in
  if (0 <=? contentIndex)%Z
  then (score + 20 + Z.max 0 (20 - contentIndex / 400))%Z
  else score.

Section WithCollation.
Context `{Collation}.

Definition bySlug (a b : LocalSitesIndexEntry) : Z :=
  localeCompare (site_slug a) (site_slug b).

Definition readLocalSitesIndex (d : Disk) : list LocalSitesIndexEntry :=
  match sitesIndexFile d with
  | None => []
  | Some sites =>
      sortBy bySlug
        (filter (fun site => negb (String.eqb (site_slug site) "") &&
                             negb (String.eqb (site_baseUrl site) "")) sites)
  end.

Definition writeLocalSitesIndex (d : Disk) (sites : list LocalSitesIndexEntry) : Disk :=
  {| siteIndexFiles := siteIndexFiles d;
     contentFiles := contentFiles d;
     docIndexFiles := docIndexFiles d;
     sitesIndexFile := Some (sortBy bySlug sites) |}.

(** The directories of [local/] that hold a [site-index.json], by slug. *)
Definition scanLocalSlugs (d : Disk) : list (string * PreloadSiteIndex) :=
  sortBy (fun a b => localeCompare (fst a) (fst b))
    (omap (fun entry : (string * string) * PreloadSiteIndex =>
             if String.eqb (snd (fst entry)) "site-index.json"
             then Some (fst (fst entry), snd entry) else None)
          (map_to_list (siteIndexFiles d))).

(** Returns the slugs and the disk, on which the registry is written when it
    was rebuilt from the directories; [now] is the clock. *)
Definition listLocalSlugs (now : Z) (d : Disk) : Disk * list string :=
  match readLocalSitesIndex d with
  | (_ :: _) as indexed => (d, map site_slug indexed)
  | [] =>
      let slugs := scanLocalSlugs d in
      (writeLocalSitesIndex d
         (map (fun s => {| site_slug := fst s;
                           site_baseUrl := si_baseUrl (snd s);
                           site_totalDocs := length (si_docs (snd s));
                           site_updatedAt := now |}) slugs),
       map fst slugs)
  end.

Definition resolveLatestSlug (d : Disk) : option string :=
  match readLocalSitesIndex d with
  | (_ :: _) as indexed =>
      head (map site_slug
              (sortBy (fun a b => (site_updatedAt b - site_updatedAt a)%Z) indexed))
  | [] => head (map fst (scanLocalSlugs d))
  end.

(** Throws ([None]) when the site index cannot be read. *)
Definition loadLocalSiteIndex (d : Disk) (slug : option string)
  : option (string * PreloadSiteIndex) :=
  let requestedSlug := match slug with Some s => trim s | None => "" end in
  match requestedSlug with
  | String _ _ =>
      si ← siteIndexFiles d !! (requestedSlug, "site-index.json");
      Some (requestedSlug, si)
  | EmptyString =>
      latestSlug ← resolveLatestSlug d;
      si ← siteIndexFiles d !! (latestSlug, "site-index.json");
      Some (latestSlug, si)
  end.

(** Throws ([None]) when the file cannot be read. *)
Definition readLocalDocContent (d : Disk) (slug contentFile : string) : option string :=
  contentFiles d !! (slug, contentFile).

(** The body of the loop over the documents of one site: the result pushed
    for [doc], if any. *)
Definition searchDoc (query normalizedQuery slug baseUrl : string)
    (doc : PreloadDocSummary) (content : string) : option LocalSearchResult :=
  let title := orElse (doc_title doc) "" in
  let normalizedTitle := toLowerCase title in
  let titleMatch := includes normalizedTitle normalizedQuery in
  let normalizedContent := toLowerCase content in
  let contentIndex := indexOf normalizedContent normalizedQuery in
  let contentMatch := (0 <=? contentIndex)%Z in
  if negb titleMatch && negb contentMatch then None
  else
    let snippet :=
      if contentMatch
      then makeSnippet content contentIndex (String.length query)
      else "Title match: " +:+ orElse (doc_title doc) (orElse (doc_path doc) (doc_url doc)) in
    let score := computeSearchScore title normalizedQuery contentIndex in
    Some {| res_slug := slug;
            res_baseUrl := baseUrl;
            res_docId := doc_id doc;
            res_title := doc_title doc;
            res_path := doc_path doc;
            res_url := doc_url doc;
            res_docsetType := doc_docsetType doc;
            res_contentFile := doc_contentFile doc;
            res_titleMatch := titleMatch;
            res_contentMatch := contentMatch;
            res_snippet := snippet;
            res_score := score |}.

Fixpoint searchDocs (d : Disk) (query normalizedQuery slug baseUrl : string)
    (docs : list PreloadDocSummary) : option (list LocalSearchResult) :=
  match docs with
  | [] => Some []
  | doc :: rest =>
      content ← readLocalDocContent d slug (doc_contentFile doc);
      more ← searchDocs d query normalizedQuery slug baseUrl rest;
      Some (match searchDoc query normalizedQuery slug baseUrl doc content with
            | Some r => r :: more
            | None => more
            end)
  end.

Fixpoint searchSlugs (d : Disk) (query normalizedQuery : string)
    (slugs : list string) : option (list LocalSearchResult) :=
  match slugs with
  | [] => Some []
  | slug :: rest =>
      '(_, si) ← loadLocalSiteIndex d (Some slug);
      here ← searchDocs d query normalizedQuery slug (si_baseUrl si) (si_docs si);
      more ← searchSlugs d query normalizedQuery rest;
      Some (here ++ more)
  end.

Definition compareResults (a b : LocalSearchResult) : Z :=
  if negb (res_score b =? res_score a)%Z then (res_score b - res_score a)%Z
  else if negb (String.eqb (res_slug a) (res_slug b))
       then localeCompare (res_slug a) (res_slug b)
       else localeCompare (res_title a) (res_title b).

Definition normalizeLimit (limit : option JsNumber) : nat :=
  match limit with
  | Some (Finite q) => Z.to_nat (clampFloor 1 200 (Finite q))
  | _ => 50
  end.

(** The disk after the call and the value returned, [None] when a read threw. *)
Definition searchLocalDocumentation (now : Z) (d : Disk) (options : SearchOptions)
  : Disk * option SearchOutput :=
  let query := trim (opt_query options) in
  match query with
  | EmptyString =>
      (d, Some {| out_query := query; out_totalResults := 0;
                  out_searchedSlugs := []; out_results := [] |})
  | String _ _ =>
      let normalizedQuery := toLowerCase query in
      let limit := normalizeLimit (opt_limit options) in
      let '(d', targetSlugs) :=
        match (match opt_slug options with Some s => trim s | None => "" end) with
        | String _ _ as s => (d, [s])
        | EmptyString => listLocalSlugs now d
        end in
      (d',
       results ← searchSlugs d' query normalizedQuery targetSlugs;
       let sorted := sortBy compareResults results in
       Some {| out_query := query;
               out_totalResults := length sorted;
               out_searchedSlugs := targetSlugs;
               out_results := take limit sorted |})
  end.

End WithCollation.
End LocalDocs.

(** ** A collation for the worked examples: the order of the code units *)
Definition codeUnitCompare (a b : string) : Z :=
  match String.compare a b with
  | Lt => (-1)%Z
  | Eq => 0%Z
  | Gt => 1%Z
  end.

Definition codeUnitCollation : Collation := codeUnitCompare.

(** ** src/lib/preload.ts *)

(** The functions of preload.ts that read Markdown with regular expressions
    or parse a URL; [humanizePath] throws ([None]) when it has to parse a
    URL that is not valid. *)
Class MarkdownText := {
  extractMarkdownTitle : string -> string;
  extractMarkdownDescription : string -> string;
  extractMarkdownHeadings : string -> list PreloadTypes.PreloadDocHeading;
  extractMarkdownLinks : string -> string -> list PreloadTypes.PreloadLinkIndexEntry;
  humanizePath : string -> string -> option string;
  normalizeComparableUrl : string -> string
}.

Module Preload.
Import JsString JsArray JsNumber PreloadTypes.









(** [`doc-${String(index + 1).padStart(5, "0")}`] *)
Definition docId (index : nat) : string :=
  "doc-" +:+ padStart 5 "0"%char (ofNat (index + 1)).

Definition slugifyFileBase (value : string) : string :=
  orElse (stripTrailingHyphens (stripLeadingHyphens (hyphenate (toLowerCase value))))
         "document".

(** The first of [base-2], [base-3], ... that is not in [used]; one of the
    first [size used + 1] candidates is free. *)
Definition uniqueFileBase (base : string) (used : gset string) : string * gset string :=
  if decide (base ∈ used)
  then
    let candidate (count : nat) := base +:+ "-" +:+ ofNat count in
    let next :=
      match List.find (fun count => bool_decide (candidate count ∉ used))
                      (seq 2 (S (size used))) with
      | Some count => candidate count
      | None => candidate (2 + S (size used))
      end in
    (next, {[next]} ∪ used)
  else (base, {[base]} ∪ used).

Definition dedupeLinkEntries (entries : list PreloadLinkIndexEntry)
  : list PreloadLinkIndexEntry :=
  (fix go (seen : gset string) (entries : list PreloadLinkIndexEntry) :=
     match entries with
     | [] => []
     | entry :: rest =>
         let key := link_url entry +:+ "::" +:+ link_title entry in
         if decide (key ∈ seen) then go seen rest
         else entry :: go ({[key]} ∪ seen) rest
     end) ∅ entries.

Section Bundle.
Context `{Collation} `{MarkdownText}.

Definition byUrl (a b : PreloadItem) : Z := localeCompare (item_url a) (item_url b).

(** The callback of [normalizedItems.map], with the two collections it
    updates; [None] when [humanizePath] throws. *)
Definition summarize (item : PreloadItem) (index : nat)
    (usedFileBases : gset string) (urlToId : gmap string string)
  : option (PreloadDocSummary * gset string * gmap string string) :=
  let id := docId index in
  title ← (match extractMarkdownTitle (item_content item) with
           | EmptyString => humanizePath (item_path item) (item_url item)
           | t => Some t
           end);
  let description := extractMarkdownDescription (item_content item) in
  slugSource ← (match title with
                | EmptyString => humanizePath (item_path item) (item_url item)
                | t => Some t
                end);
  let '(fileBase, usedFileBases') := uniqueFileBase (slugifyFileBase slugSource) usedFileBases in
  Some ({| doc_id := id;
           doc_path := item_path item;
           doc_url := item_url item;
           doc_docsetType := item_docsetType item;
           doc_title := title;
           doc_description := description;
           doc_contentFile := fileBase +:+ ".md";
           doc_indexFile := fileBase +:+ ".index.json" |},
        usedFileBases',
        <[normalizeComparableUrl (item_url item) := id]> urlToId).

Fixpoint summarizeAll (items : list PreloadItem) (index : nat)
    (usedFileBases : gset string) (urlToId : gmap string string)
  : option (list PreloadDocSummary * gmap string string) :=
  match items with
  | [] => Some ([], urlToId)
  | item :: rest =>
      '(summary, used', urlToId') ← summarize item index usedFileBases urlToId;
      '(summaries, urlToId'') ← summarizeAll rest (S index) used' urlToId';
      Some (summary :: summaries, urlToId'')
  end.

(** The body of the loop that fills [docIndexes]. *)
Definition indexDoc (normalizedItems : list PreloadItem) (urlToId : gmap string string)
    (docIndexes : gmap string PreloadDocIndex) (summary : PreloadDocSummary)
  : gmap string PreloadDocIndex :=
  match find (fun item => String.eqb (normalizeComparableUrl (item_url item))
                                     (normalizeComparableUrl (doc_url summary)))
             normalizedItems with
  | None => docIndexes
  | Some doc =>
      let headings := extractMarkdownHeadings (item_content doc) in
      let rawLinks := extractMarkdownLinks (item_content doc) (item_url doc) in
      let dedupedLinks :=
        map (fun link =>
               {| link_title := link_title link;
                  link_url := link_url link;
                  link_description := link_description link;
                  link_localDocId := urlToId !! normalizeComparableUrl (link_url link) |})
            (dedupeLinkEntries rawLinks) in
      <[doc_id summary := {| idx_doc := summary;
                             idx_headings := headings;
                             idx_links := dedupedLinks;
                             idx_suggested := None |}]> docIndexes
  end.

(** [now] is the clock read for [generatedAt]; [None] when a URL that had to
    be parsed is not valid. *)
Definition buildPreloadBundle (now : Z) (baseUrl : string) (items : list PreloadItem)
  : option PreloadBundle :=
  let normalizedItems := sortBy byUrl items in
  '(summaries, urlToId) ← summarizeAll normalizedItems 0 ∅ ∅;
  let docIndexes := foldl (indexDoc normalizedItems urlToId) ∅ summaries in
  Some {| siteIndex := {| si_generatedAt := now;
                          si_baseUrl := baseUrl;
                          si_totalDocs := length summaries;
                          si_docs := summaries |};
          docIndexes := docIndexes;
          docs := normalizedItems |}.

End Bundle.
End Preload.

(** ** The platform below the discovery engine *)

(** The WHATWG [URL] class: [newURL s] is [new URL(s)] and [newURLFrom rel
    base] is [new URL(rel, base)], [None] when the constructor throws. *)
Class UrlApi := {
  URL : Type;
  newURL : string -> option URL;
  newURLFrom : string -> URL -> option URL;
  urlToString : URL -> string;
  protocol : URL -> string;
  hostname : URL -> string;
  pathname : URL -> string;
  hash : URL -> string;
  setHash : URL -> string -> URL;
  setSearch : URL -> string -> URL;
  setPathname : URL -> string -> URL
}.

(** The network seen through [fetchText] of docset/preload.ts: the body of
    the response, or the message of the error thrown (a failed request, a
    time-out, a status that is not ok). [W] is the state of the world. *)
Class Network (W : Type) := fetchText : W -> string -> string -> W * (string + string).

(** The parsers of docset/preload.ts, which read HTML, XML and JSON with
    regular expressions and [JSON.parse]: the URLs found in a text fetched
    from a source URL. *)
Class DiscoveryParsers := {
  parseLinksFromHtml : string -> string -> list string;
  parseSitemapUrls : string -> string -> list string;
  parseSearchIndexUrls : string -> string -> list string
}.

(** ** src/lib/docset/preload.ts *)
Module DocsetPreload.
Import JsString JsArray JsNumber.

Definition SEARCH_INDEX_PATHS : list string :=
  ["search/search_index.json"; "searchindex.json"; "search.json";
   "search-index.json"; "searchindex.js"].

Definition SITEMAP_PATHS : list string := ["sitemap.xml"; "sitemap_index.xml"].

Definition NON_DOC_EXTENSIONS : list string :=
  [".png"; ".jpg"; ".jpeg"; ".gif"; ".webp"; ".svg"; ".ico"; ".pdf"; ".zip";
   ".gz"; ".tgz"; ".tar"; ".mp4"; ".mp3"; ".wav"; ".css"; ".js"; ".map";
   ".woff"; ".woff2"; ".ttf"; ".otf"].

Record DiscoverOptions := {
  includeIndexes : option bool;
  includeLinks : option bool;
  maxDiscover : option JsNumber;
  maxDepth : option JsNumber;
  sameHostOnly : option bool
}.

Record Diagnostics := {
  attempted : list string;
  fetched : list string;
  errors : list (string * string)
}.

Record DiscoverResult := {
  urls : list string;
  diagnostics : Diagnostics
}.

(** What a call does: it throws, it returns, or the loop of the model ran
    out of steps (which the proofs exclude). *)
Inductive Outcome (A : Type) : Type :=
| Throws
| Returns (a : A)
| OutOfSteps.
Arguments Throws {A}.
Arguments Returns {A} a.
Arguments OutOfSteps {A}.

(** [value] is [None] when it is not a number. *)
Definition normalizePositiveInt (value : option JsNumber) (defaultValue maxValue : Z) : Z :=
  match value with
  | None | Some NaN => defaultValue
  | Some x => clampFloor 1 maxValue x
  end.

(** [x !== false] for an optional flag. *)
Definition notFalse (x : option bool) : bool :=
  match x with
  | Some false => false
  | _ => true
  end.

(** [set.add(x)] on a [Set] kept in insertion order. *)
Definition setAdd (x : string) (s : list string) : list string :=
  if decide (x ∈ s) then s else s ++ [x].

Definition dedupePreserveOrder (values : list string) : list string :=
  dedupeFrom ∅ (filter (fun v => negb (String.eqb v "")) values).

Definition pushAttempted (url : string) (g : Diagnostics) : Diagnostics :=
  {| attempted := attempted g ++ [url]; fetched := fetched g; errors := errors g |}.

Definition pushFetched (url : string) (g : Diagnostics) : Diagnostics :=
  {| attempted := attempted g; fetched := fetched g ++ [url]; errors := errors g |}.

Definition pushError (url message : string) (g : Diagnostics) : Diagnostics :=
  {| attempted := attempted g; fetched := fetched g; errors := errors g ++ [(url, message)] |}.

Section Discovery.
Context `{UrlApi} `{DiscoveryParsers} {W : Type} `{Network W}.

Definition normalizeUrl (url : string) : option string :=
  parsed ← newURL url;
  Some (urlToString (setHash parsed "")).

Definition isAllowedUrl (url : string) (base : URL) (sameHostOnly : bool) : bool :=
  match newURL url with
  | None => false
  | Some parsed =>
      if negb (String.eqb (protocol parsed) "http:" || String.eqb (protocol parsed) "https:")
      then false
      else if sameHostOnly && negb (String.eqb (hostname parsed) (hostname base))
           then false
           else true
  end.

Definition isLikelyDocumentationPage (url : string) : bool :=
  match newURL url with
  | None => false
  | Some parsed =>
      let path := toLowerCase (pathname parsed) in
      negb (existsb (fun ext => endsWith path ext) NON_DOC_EXTENSIONS)
  end.

Definition buildIndexBaseCandidates (base : URL) : option (list URL) :=
  root ← newURLFrom "/" base;
  currentDir ← newURL (urlToString base);
  let currentDir :=
    if endsWith (pathname currentDir) "/" then currentDir
    else setPathname currentDir (pathname currentDir +:+ "/") in
  mapM newURL (dedupePreserveOrder [urlToString currentDir; urlToString root]).

(** The loop [for (const url of urls)] of the two index readers. *)
Fixpoint admitFromIndex (urls : list string) (base : URL) (sameHostOnly : bool)
    (maxDiscover : nat) (discovered : list string) : list string :=
  match urls with
  | [] => discovered
  | url :: rest =>
      if negb (isAllowedUrl url base sameHostOnly)
      then admitFromIndex rest base sameHostOnly maxDiscover discovered
      else if negb (isLikelyDocumentationPage url)
      then admitFromIndex rest base sameHostOnly maxDiscover discovered
      else
        let discovered := setAdd url discovered in
        if (maxDiscover <=? length discovered)%nat then discovered
        else admitFromIndex rest base sameHostOnly maxDiscover discovered
  end.

Definition tryDiscoverFromSitemap (w : W) (sitemapUrl : string) (base : URL)
    (discovered : list string) (g : Diagnostics) (maxDiscover : nat) (sameHostOnly : bool)
  : W * list string * Diagnostics :=
  let g := pushAttempted sitemapUrl g in
  match fetchText w sitemapUrl "application/xml, text/xml, text/plain" with
  | (w, inr xml) =>
      let g := pushFetched sitemapUrl g in
      let urls := parseSitemapUrls xml sitemapUrl in
      (w, admitFromIndex urls base sameHostOnly maxDiscover discovered, g)
  | (w, inl message) => (w, discovered, pushError sitemapUrl message g)
  end.

Definition tryDiscoverFromSearchIndex (w : W) (indexUrl indexBase : string) (base : URL)
    (discovered : list string) (g : Diagnostics) (maxDiscover : nat) (sameHostOnly : bool)
  : W * list string * Diagnostics :=
  let g := pushAttempted indexUrl g in
  match fetchText w indexUrl "application/json, text/javascript, text/plain" with
  | (w, inr raw) =>
      let g := pushFetched indexUrl g in
      let urls := parseSearchIndexUrls raw indexBase in
      (w, admitFromIndex urls base sameHostOnly maxDiscover discovered, g)
  | (w, inl message) => (w, discovered, pushError indexUrl message g)
  end.

(** The loop over [SITEMAP_PATHS] for one index base; [None] when
    [new URL(path, indexBase)] throws. *)
Fixpoint sitemapLoop (paths : list string) (w : W) (indexBase base : URL)
    (discovered : list string) (g : Diagnostics) (maxDiscover : nat) (sameHostOnly : bool)
  : option (W * list string * Diagnostics) :=
  match paths with
  | [] => Some (w, discovered, g)
  | path :: rest =>
      if (maxDiscover <=? length discovered)%nat then Some (w, discovered, g)
      else
        sitemapUrl ← newURLFrom path indexBase;
        let '(w, discovered, g) :=
          tryDiscoverFromSitemap w (urlToString sitemapUrl) base discovered g
            maxDiscover sameHostOnly in
        sitemapLoop rest w indexBase base discovered g maxDiscover sameHostOnly
  end.

(** The loop over [SEARCH_INDEX_PATHS] for one index base. *)
Fixpoint searchIndexLoop (paths : list string) (w : W) (indexBase base : URL)
    (discovered : list string) (g : Diagnostics) (maxDiscover : nat) (sameHostOnly : bool)
  : option (W * list string * Diagnostics) :=
  match paths with
  | [] => Some (w, discovered, g)
  | path :: rest =>
      if (maxDiscover <=? length discovered)%nat then Some (w, discovered, g)
      else
        indexUrl ← newURLFrom path indexBase;
        let '(w, discovered, g) :=
          tryDiscoverFromSearchIndex w (urlToString indexUrl) (urlToString indexBase)
            base discovered g maxDiscover sameHostOnly in
        searchIndexLoop rest w indexBase base discovered g maxDiscover sameHostOnly
  end.

Fixpoint indexBasesLoop (indexBases : list URL) (w : W) (base : URL)
    (discovered : list string) (g : Diagnostics) (maxDiscover : nat) (sameHostOnly : bool)
  : option (W * list string * Diagnostics) :=
  match indexBases with
  | [] => Some (w, discovered, g)
  | indexBase :: rest =>
      '(w, discovered, g) ←
        sitemapLoop SITEMAP_PATHS w indexBase base discovered g maxDiscover sameHostOnly;
      '(w, discovered, g) ←
        searchIndexLoop SEARCH_INDEX_PATHS w indexBase base discovered g
          maxDiscover sameHostOnly;
      indexBasesLoop rest w base discovered g maxDiscover sameHostOnly
  end.

(** The loop [for (const link of links)] of the crawl of one page at depth
    [depth]: the discovered set and the queue after it. *)
Fixpoint admitLinks (links : list string) (base : URL) (sameHostOnly : bool)
    (maxDiscover maxDepth depth : nat) (discovered : list string)
    (queue : list (string * nat)) : list string * list (string * nat) :=
  match links with
  | [] => (discovered, queue)
  | link :: rest =>
      if negb (isAllowedUrl link base sameHostOnly)
      then admitLinks rest base sameHostOnly maxDiscover maxDepth depth discovered queue
      else if negb (isLikelyDocumentationPage link)
      then admitLinks rest base sameHostOnly maxDiscover maxDepth depth discovered queue
      else if decide (link ∈ discovered)
      then admitLinks rest base sameHostOnly maxDiscover maxDepth depth discovered queue
      else
        let discovered := discovered ++ [link] in
        let queue := if (depth <? maxDepth)%nat then queue ++ [(link, S depth)] else queue in
        if (maxDiscover <=? length discovered)%nat then (discovered, queue)
        else admitLinks rest base sameHostOnly maxDiscover maxDepth depth discovered queue
  end.

(** The loop [while (queue.length > 0 && discovered.size < maxDiscover)];
    [steps] bounds the number of iterations and [None] tells that the bound
    was reached. *)
Fixpoint crawlLoop (steps : nat) (w : W) (base : URL) (sameHostOnly : bool)
    (maxDiscover maxDepth : nat) (discovered : list string) (seenCrawl : gset string)
    (queue : list (string * nat)) (g : Diagnostics)
  : option (W * list string * Diagnostics) :=
  match queue with
  | [] => Some (w, discovered, g)
  | (url, depth) :: queue =>
      if negb (length discovered <? maxDiscover)%nat then Some (w, discovered, g)
      else
        match steps with
        | O => None
        | S steps =>
            if (maxDepth <? depth)%nat
            then crawlLoop steps w base sameHostOnly maxDiscover maxDepth
                   discovered seenCrawl queue g
            else if decide (url ∈ seenCrawl)
            then crawlLoop steps w base sameHostOnly maxDiscover maxDepth
                   discovered seenCrawl queue g
            else
              let seenCrawl := {[url]} ∪ seenCrawl in
              let g := pushAttempted url g in
              match fetchText w url "text/html" with
              | (w, inl message) =>
                  crawlLoop steps w base sameHostOnly maxDiscover maxDepth
                    discovered seenCrawl queue (pushError url message g)
              | (w, inr html) =>
                  let g := pushFetched url g in
                  let links := parseLinksFromHtml html url in
                  let '(discovered, queue) :=
                    admitLinks links base sameHostOnly maxDiscover maxDepth depth
                      discovered queue in
                  crawlLoop steps w base sameHostOnly maxDiscover maxDepth
                    discovered seenCrawl queue g
              end
        end
  end.

Definition discoverDocumentationUrls (w : W) (baseUrl : string) (options : DiscoverOptions)
  : W * Outcome DiscoverResult :=
  let maxDiscover := Z.to_nat (normalizePositiveInt (maxDiscover options) 300 2000) in
  let maxDepth := Z.to_nat (normalizePositiveInt (maxDepth options) 2 5) in
  let includeIndexes := notFalse (includeIndexes options) in
  let includeLinks := notFalse (includeLinks options) in
  let sameHostOnly := notFalse (sameHostOnly options) in
  match normalizeUrl baseUrl with
  | None => (w, Throws)
  | Some normalizedBase =>
      match newURL normalizedBase with
      | None => (w, Throws)
      | Some base =>
          let g := {| attempted := []; fetched := []; errors := [] |} in
          let discovered := [normalizedBase] in
          let queue := [(normalizedBase, 0)] in
          let afterIndexes :=
            if includeIndexes
            then
              indexBases ← buildIndexBaseCandidates base;
              indexBasesLoop indexBases w base discovered g maxDiscover sameHostOnly
            else Some (w, discovered, g) in
          match afterIndexes with
          | None => (w, Throws)
          | Some (w, discovered, g) =>
              if includeLinks
              then
                match crawlLoop (S maxDiscover) w base sameHostOnly maxDiscover maxDepth
                        discovered ∅ queue g with
                | None => (w, OutOfSteps)
                | Some (w, discovered, g) =>
                    (w, Returns {| urls := discovered; diagnostics := g |})
                end
              else (w, Returns {| urls := discovered; diagnostics := g |})
          end
      end
  end.

End Discovery.
End DocsetPreload.

(** ** A URL model for the worked examples

    Absolute URLs of the form [scheme://host/path?query#fragment], without
    port, credentials or escapes, and references that are a path. *)
Module SimpleUrl.
Import JsString.

Record Url := {
  u_protocol : string;
  u_hostname : string;
  u_pathname : string;
  u_search : string;
  u_hash : string
}.

Fixpoint takeUntil (stop : ascii -> bool) (s : string) : string :=
  match s with
  | EmptyString => EmptyString
  | String c s' => if stop c then EmptyString else String c (takeUntil stop s')
  end.

Fixpoint dropUntil (stop : ascii -> bool) (s : string) : string :=
  match s with
  | EmptyString => EmptyString
  | String c s' => if stop c then s else dropUntil stop s'
  end.

Definition isOneOf (chars : string) (c : ascii) : bool :=
  existsb (Ascii.eqb c) (list_ascii_of_string chars).

(** The path, query and fragment of the text that follows the host. *)
Definition splitTail (tail : string) : string * string * string :=
  let path := takeUntil (isOneOf "?#") tail in
  let afterPath := dropUntil (isOneOf "?#") tail in
  (path, takeUntil (isOneOf "#") afterPath, dropUntil (isOneOf "#") afterPath).

Definition parse (s : string) : option Url :=
  match indexOfNat s "://" with
  | None => None
  | Some i =>
      let scheme := toLowerCase (substring 0 i s) in
      let rest := substring (i + 3) (String.length s - (i + 3)) s in
      let host := toLowerCase (takeUntil (isOneOf "/?#") rest) in
      let '(path, search, hash) := splitTail (dropUntil (isOneOf "/?#") rest) in
      match scheme, host with
      | String _ _, String _ _ =>
          Some {| u_protocol := scheme +:+ ":";
                  u_hostname := host;
                  u_pathname := orElse path "/";
                  u_search := search;
                  u_hash := hash |}
      | _, _ => None
      end
  end.

(** The directory of a path: the path up to its last slash. *)
Fixpoint directoryOf (path : string) : string :=
  match path with
  | EmptyString => EmptyString
  | String c rest =>
      if includes rest "/" then String c (directoryOf rest)
      else if Ascii.eqb c "/"%char then "/" else EmptyString
  end.

Definition parseFrom (reference : string) (base : Url) : option Url :=
  match parse reference with
  | Some u => Some u
  | None =>
      let '(path, search, hash) := splitTail reference in
      Some {| u_protocol := u_protocol base;
              u_hostname := u_hostname base;
              u_pathname := if startsWith path "/" then path
                            else directoryOf (u_pathname base) +:+ path;
              u_search := search;
              u_hash := hash |}
  end.

Definition toString (u : Url) : string :=
  u_protocol u +:+ "//" +:+ u_hostname u +:+ u_pathname u +:+ u_search u +:+ u_hash u.

Definition withHash (u : Url) (hash : string) : Url :=
  {| u_protocol := u_protocol u; u_hostname := u_hostname u;
     u_pathname := u_pathname u; u_search := u_search u; u_hash := hash |}.

Definition withSearch (u : Url) (search : string) : Url :=
  {| u_protocol := u_protocol u; u_hostname := u_hostname u;
     u_pathname := u_pathname u; u_search := search; u_hash := u_hash u |}.

Definition withPathname (u : Url) (path : string) : Url :=
  {| u_protocol := u_protocol u; u_hostname := u_hostname u;
     u_pathname := path; u_search := u_search u; u_hash := u_hash u |}.

Definition api : UrlApi :=
  {| URL := Url;
     newURL := parse;
     newURLFrom := parseFrom;
     urlToString := toString;
     protocol := u_protocol;
     hostname := u_hostname;
     pathname := u_pathname;
     hash := u_hash;
     setHash := withHash;
     setSearch := withSearch;
     setPathname := withPathname |}.

End SimpleUrl.

(** A network on which every request fails, and parsers that are then never
    called: the environment of the examples that need no page. *)
Definition offlineNetwork : Network unit :=
  fun w _ _ => (w, inl "fetch failed").

Definition noParsers : DiscoveryParsers :=
  {| parseLinksFromHtml := fun _ _ => [];
     parseSitemapUrls := fun _ _ => [];
     parseSearchIndexUrls := fun _ _ => [] |}.

(** What the proofs about sorting ask of the collation: that it is a
    consistent comparison, as ECMA-262 asks of [localeCompare]. The strings
    fall into classes of strings that compare as equal, and the classes are
    totally ordered. Two different strings may compare as equal: strings
    that are canonically equivalent do. *)
Class CollationOrder `{Collation} : Prop := {
  localeCompare_total (a b : string) :
    (localeCompare a b <= 0)%Z \/ (localeCompare b a <= 0)%Z;
  localeCompare_trans (a b c : string) :
    (localeCompare a b <= 0)%Z -> (localeCompare b c <= 0)%Z -> (localeCompare a c <= 0)%Z;
  localeCompare_equal (a b : string) :
    (localeCompare a b <= 0)%Z -> (localeCompare b a <= 0)%Z -> localeCompare a b = 0%Z
}.

(** ** The text functions for the worked examples

    The functions of [MarkdownText] on documents whose content is empty (no
    title, description, heading or link) and whose path or URL ends with a
    segment of letters and digits. *)
Module ExampleText.
Import JsString.

Definition lastSegment (path : string) : string :=
  List.last (filter (fun part => negb (String.eqb part ""))
               (splitOn (Ascii.eqb "/"%char) path)) "Documentation".

Definition humanize (path url : string) : option string :=
  if negb (String.eqb path "") && negb (String.eqb path "/")
  then Some (lastSegment path)
  else option_map (fun u => lastSegment (SimpleUrl.u_pathname u)) (SimpleUrl.parse url).

Definition comparableUrl (url : string) : string :=
  match SimpleUrl.parse url with
  | None => url
  | Some parsed =>
      let asString := SimpleUrl.toString (SimpleUrl.withHash parsed "") in
      if endsWith asString "/"
      then slice asString 0 (String.length asString - 1)
      else asString
  end.

Definition emptyDocuments : MarkdownText :=
  {| extractMarkdownTitle := fun _ => EmptyString;
     extractMarkdownDescription := fun _ => EmptyString;
     extractMarkdownHeadings := fun _ => [];
     extractMarkdownLinks := fun _ _ => [];
     humanizePath := humanize;
     normalizeComparableUrl := comparableUrl |}.

(** The functions of [MarkdownText] on documents made of one line of words
    separated by single spaces, without markup: no title, heading or link,
    and the description is the line, cut at 280 characters. *)
Definition plainParagraphs : MarkdownText :=
  {| extractMarkdownTitle := fun _ => EmptyString;
     extractMarkdownDescription := fun content => slice content 0 280;
     extractMarkdownHeadings := fun _ => [];
     extractMarkdownLinks := fun _ _ => [];
     humanizePath := humanize;
     normalizeComparableUrl := comparableUrl |}.

End ExampleText.

(** ** src/lib/preload-local.ts: the local store *)

(** The parts of preload-local.ts that work with regular expressions or
    floating point: the rewriting of the Markdown links of a document
    (content, source URL, map from URLs to local files), the tokens of a
    document (content, title), and [Number(x.toFixed(3))]. *)
Class LocalText := {
  rewriteMarkdownLinksToLocal : string -> string -> gmap string string -> string;
  tokenizeForOverlap : string -> string -> gset string;
  toFixed3 : Q -> Q
}.

Module PreloadLocal.
Import JsString JsArray JsNumber PreloadTypes.

Record LocalWriteResult := {
  enabled : bool;
  directory : string;
  writtenDocs : nat;
  writtenIndexes : nat;
  siteIndexFile : string;
  docsJsonDir : string;
  jsonlFile : string;
  errors : list string
}.

Definition slugify (value : string) : string :=
  orElse (stripTrailingHyphens (stripLeadingHyphens (hyphenate (toLowerCase value)))) "doc".

(** [s.replace(/\/+$/, "")] *)
Fixpoint stripTrailingSlashes (s : string) : string :=
  match s with
  | EmptyString => EmptyString
  | String c s' =>
      match stripTrailingSlashes s' with
      | EmptyString => if Ascii.eqb c "/"%char then EmptyString else String c EmptyString
      | t => String c t
      end
  end.

Definition setSitesIndexFile (d : Disk) (sites : list LocalSitesIndexEntry) : Disk :=
  {| siteIndexFiles := siteIndexFiles d; contentFiles := contentFiles d;
     docIndexFiles := docIndexFiles d; sitesIndexFile := Some sites |}.

Definition writeSiteIndexFile (d : Disk) (dir name : string) (si : PreloadSiteIndex) : Disk :=
  {| siteIndexFiles := <[(dir, name) := si]> (siteIndexFiles d);
     contentFiles := contentFiles d;
     docIndexFiles := docIndexFiles d; sitesIndexFile := sitesIndexFile d |}.

Definition writeContentFile (d : Disk) (dir name content : string) : Disk :=
  {| siteIndexFiles := siteIndexFiles d;
     contentFiles := <[(dir, name) := content]> (contentFiles d);
     docIndexFiles := docIndexFiles d; sitesIndexFile := sitesIndexFile d |}.

Definition writeDocIndexFile (d : Disk) (dir name : string) (index : PreloadDocIndex) : Disk :=
  {| siteIndexFiles := siteIndexFiles d; contentFiles := contentFiles d;
     docIndexFiles := <[(dir, name) := index]> (docIndexFiles d);
     sitesIndexFile := sitesIndexFile d |}.

Definition withSuggested (index : PreloadDocIndex)
    (suggested : option (list PreloadSuggestedDoc)) : PreloadDocIndex :=
  {| idx_doc := idx_doc index; idx_headings := idx_headings index;
     idx_links := idx_links index; idx_suggested := suggested |}.

Definition mergeWithExistingDocIndex (d : Disk) (dir indexFile : string)
    (generated : PreloadDocIndex) : PreloadDocIndex :=
  match docIndexFiles d !! (dir, indexFile) with
  | Some existing =>
      let existingSuggested := idx_suggested existing in
      {| idx_doc := idx_doc generated;
         idx_headings := idx_headings generated;
         idx_links := idx_links generated;
         idx_suggested := match existingSuggested with
                          | Some suggested => Some suggested
                          | None => idx_suggested generated
                          end |}
  | None => generated
  end.

Section Store.
Context `{Collation} `{UrlApi} `{LocalText}.

Definition normalizeBaseUrlForName (baseUrl : string) : string :=
  match newURL baseUrl with
  | Some parsed =>
      toLowerCase (hostname parsed +:+ stripTrailingSlashes (pathname parsed))
  | None => toLowerCase baseUrl
  end.

Definition finalDirectoryNameFromBaseUrl (baseUrl : string) : string :=
  orElse (slugify (normalizeBaseUrlForName baseUrl)) "docs".

Definition normalizeLocalComparableUrl (url : string) : string :=
  match newURL url with
  | Some parsed =>
      let asString := urlToString (setSearch (setHash parsed "") "") in
      if endsWith asString "/"
      then slice asString 0 (String.length asString - 1)
      else asString
  | None => url
  end.

Definition rewriteDocIndexLinksToLocal (docIndex : PreloadDocIndex)
    (urlToLocalFile : gmap string string) : PreloadDocIndex :=
  {| idx_doc := idx_doc docIndex;
     idx_headings := idx_headings docIndex;
     idx_links :=
       map (fun link =>
              match newURL (link_url link) with
              | None => link
              | Some parsed =>
                  match urlToLocalFile !! normalizeLocalComparableUrl (urlToString parsed) with
                  | None => link
                  | Some localFile =>
                      {| link_title := link_title link;
                         link_url := localFile +:+ hash parsed;
                         link_description := link_description link;
                         link_localDocId := link_localDocId link |}
                  end
              end) (idx_links docIndex);
     idx_suggested := idx_suggested docIndex |}.

Definition updateLocalSitesIndex (d : Disk) (nextEntry : LocalSitesIndexEntry) : Disk :=
  let current :=
    match sitesIndexFile d with
    | Some sites =>
        filter (fun item => negb (String.eqb (site_slug item) "") &&
                            negb (String.eqb (site_baseUrl item) "")) sites
    | None => []
    end in
  let without :=
    filter (fun site => negb (String.eqb (site_slug site) (site_slug nextEntry))) current in
  setSitesIndexFile d
    (sortBy (fun a b => localeCompare (site_slug a) (site_slug b)) (without ++ [nextEntry])).

(** The first loop of [writePreloadBundleToLocal]: the local file of each
    URL. *)
Definition addLocalFile (baseUrl : string) (urlToLocalFile : gmap string string)
    (summary : PreloadDocSummary) : gmap string string :=
  let m := <[normalizeLocalComparableUrl (doc_url summary) := doc_contentFile summary]>
             urlToLocalFile in
  match doc_path summary with
  | EmptyString => m
  | path =>
      match base ← newURL baseUrl; newURLFrom path base with
      | Some resolved =>
          <[normalizeLocalComparableUrl (urlToString resolved) := doc_contentFile summary]> m
      | None => m
      end
  end.

(** The index of [doc] that [writePreloadBundleToLocal] merges with the
    file on the disk: that of the bundle with its links made local, or an
    empty one. *)
Definition generatedDocIndex (bundle : PreloadBundle)
    (urlToLocalFile : gmap string string) (doc : PreloadDocSummary) : PreloadDocIndex :=
  match docIndexes bundle !! doc_id doc with
  | None => {| idx_doc := doc; idx_headings := []; idx_links := []; idx_suggested := None |}
  | Some perDocIndex => rewriteDocIndexLinksToLocal perDocIndex urlToLocalFile
  end.

(** The body of the second loop: the content file and the merged index file
    of one document. *)
Definition writeDoc (bundle : PreloadBundle) (finalDir : string)
    (urlToLocalFile : gmap string string) (state : Disk * LocalWriteResult)
    (doc : PreloadDocSummary) : Disk * LocalWriteResult :=
  let '(d, result) := state in
  let sourceContent :=
    match find (fun entry => String.eqb (item_url entry) (doc_url doc) &&
                             String.eqb (item_path entry) (doc_path doc)) (docs bundle) with
    | Some entry => item_content entry
    | None => EmptyString
    end in
  let content := rewriteMarkdownLinksToLocal sourceContent (doc_url doc) urlToLocalFile in
  let rewrittenDocIndex := generatedDocIndex bundle urlToLocalFile doc in
  let d := writeContentFile d finalDir (doc_contentFile doc) content in
  let mergedIndex := mergeWithExistingDocIndex d finalDir (doc_indexFile doc) rewrittenDocIndex in
  let d := writeDocIndexFile d finalDir (doc_indexFile doc) mergedIndex in
  (d, {| enabled := enabled result; directory := directory result;
         writtenDocs := S (writtenDocs result);
         writtenIndexes := S (writtenIndexes result);
         siteIndexFile := siteIndexFile result; docsJsonDir := docsJsonDir result;
         jsonlFile := jsonlFile result; errors := errors result |}).

Definition countSharedTerms (a b : gset string) : nat :=
  let '(small, large) := if (size a <=? size b)%nat then (a, b) else (b, a) in
  size (filter (fun token => token ∈ large) small).

Record Suggestion := {
  target : PreloadDocSummary;
  score : Q;
  sharedTerms : nat
}.

Definition compareSuggestions (a b : Suggestion) : Z :=
  match Qcompare (score b) (score a) with
  | Lt => (-1)%Z
  | Gt => 1%Z
  | Eq =>
      if negb (sharedTerms b =? sharedTerms a)%nat
      then (Z.of_nat (sharedTerms b) - Z.of_nat (sharedTerms a))%Z
      else localeCompare (doc_title (target a)) (doc_title (target b))
  end.

(** The tokens of each document, read from its content file, or from its
    title when the file cannot be read. *)
Definition tokenize (d : Disk) (finalDir : string) (doc : PreloadDocSummary)
  : PreloadDocSummary * gset string :=
  match contentFiles d !! (finalDir, doc_contentFile doc) with
  | Some content => (doc, tokenizeForOverlap content (doc_title doc))
  | None => (doc, tokenizeForOverlap (doc_title doc) (doc_title doc))
  end.

(** The suggestions of [source] among [tokenized]: the inner loop, the sort
    and the cut at ten. *)
Definition suggestionsOf (tokenized : list (PreloadDocSummary * gset string))
    (source : PreloadDocSummary * gset string) : list Suggestion :=
  take 10
    (sortBy compareSuggestions
       (omap (fun target : PreloadDocSummary * gset string =>
                if String.eqb (doc_id (fst source)) (doc_id (fst target)) then None
                else
                  let shared := countSharedTerms (snd source) (snd target) in
                  if (shared <? 8)%nat then None
                  else
                    let score :=
                      (Z.of_nat shared #
                       Pos.of_nat (Nat.max 1 (Nat.min (size (snd source))
                                                      (size (snd target)))))%Q in
                    if Qle_bool (18 # 100) score
                    then Some {| target := fst target; score := score; sharedTerms := shared |}
                    else None)
             tokenized)).

Definition toSuggestedDoc (entry : Suggestion) : PreloadSuggestedDoc :=
  {| sug_docId := doc_id (target entry);
     sug_title := doc_title (target entry);
     sug_path := doc_path (target entry);
     sug_url := doc_url (target entry);
     sug_contentFile := doc_contentFile (target entry);
     sug_indexFile := doc_indexFile (target entry);
     sug_overlapScore := toFixed3 (score entry);
     sug_sharedTerms := sharedTerms entry |}.

(** The body of the last loop: the index file of [doc] keeps a list of
    suggestions that is not empty, and receives the computed one otherwise;
    a file that cannot be read is skipped. *)
Definition annotateDoc (finalDir : string) (byDocId : gmap string (list Suggestion))
    (d : Disk) (doc : PreloadDocSummary) : Disk :=
  match docIndexFiles d !! (finalDir, doc_indexFile doc) with
  | None => d
  | Some parsed =>
      let existingSuggested := idx_suggested parsed in
      let suggestions := map toSuggestedDoc (default [] (byDocId !! doc_id doc)) in
      let suggested :=
        match existingSuggested with
        | Some (_ :: _) => idx_suggested parsed
        | _ => Some suggestions
        end in
      writeDocIndexFile d finalDir (doc_indexFile doc) (withSuggested parsed suggested)
  end.

(** The map [byDocId]: the suggestions of each document, from the content
    files on [d]. *)
Definition suggestionsByDocId (d : Disk) (finalDir : string)
    (docs : list PreloadDocSummary) : gmap string (list Suggestion) :=
  let tokenized := map (tokenize d finalDir) docs in
  foldl (fun m source => <[doc_id (fst source) := suggestionsOf tokenized source]> m)
        ∅ tokenized.

Definition annotateSuggestedDocsInLocalDir (d : Disk) (finalDir : string)
    (docs : list PreloadDocSummary) : Disk :=
  foldl (annotateDoc finalDir (suggestionsByDocId d finalDir docs)) d docs.

(** [now] is the clock read for the registry. On this disk no write fails,
    so the handler of the exceptions of the source is not reached. *)
Definition writePreloadBundleToLocal (now : Z) (d : Disk) (bundle : PreloadBundle)
    (result : LocalWriteResult) : Disk * LocalWriteResult :=
  if negb (enabled result) then (d, result)
  else
    let baseUrl := si_baseUrl (siteIndex bundle) in
    let finalDir := finalDirectoryNameFromBaseUrl baseUrl in
    let d := writeSiteIndexFile d finalDir (siteIndexFile result) (siteIndex bundle) in
    let urlToLocalFile := foldl (addLocalFile baseUrl) ∅ (si_docs (siteIndex bundle)) in
    let '(d, result) :=
      foldl (writeDoc bundle finalDir urlToLocalFile) (d, result)
            (si_docs (siteIndex bundle)) in
    let d := updateLocalSitesIndex d
               {| site_slug := finalDirectoryNameFromBaseUrl baseUrl;
                  site_baseUrl := baseUrl;
                  site_totalDocs := length (si_docs (siteIndex bundle));
                  site_updatedAt := now |} in
    let d := annotateSuggestedDocsInLocalDir d finalDir (si_docs (siteIndex bundle)) in
    (d, {| enabled := enabled result; directory := finalDir;
           writtenDocs := writtenDocs result; writtenIndexes := writtenIndexes result;
           siteIndexFile := siteIndexFile result; docsJsonDir := docsJsonDir result;
           jsonlFile := jsonlFile result; errors := errors result |}).

End Store.
End PreloadLocal.

(** The text functions of the local store on documents without links and
    without a word of three letters or more: nothing to rewrite, no token. *)
Definition plainLocalText : LocalText :=
  {| rewriteMarkdownLinksToLocal := fun markdown _ _ => markdown;
     tokenizeForOverlap := fun _ _ => ∅;
     toFixed3 := fun q => q |}.

(** The text functions of the local store on documents without links whose
    title and content are lower-case words of letters and digits, none of
    them a stop word, separated by single spaces: nothing to rewrite, the
    tokens are the words of three characters or more of the title and of
    the content, and a score is rounded to the nearest thousandth. *)
Definition wordsLocalText : LocalText :=
  {| rewriteMarkdownLinksToLocal := fun markdown _ _ => markdown;
     tokenizeForOverlap := fun content title =>
       list_to_set
         (filter (fun word => (3 <=? String.length word)%nat)
                 (JsString.splitOn JsString.isSpace (title +:+ " " +:+ content)));
     toFixed3 := fun q => (Qfloor (q * 1000 + (1 # 2)) # 1000)%Q |}.

(** ** src/lib/preload-job-manager.ts and the job snapshots of preload-local.ts *)
Module PreloadJobManager.
Import JsString JsArray JsNumber PreloadTypes.

Inductive PreloadJobStatus : Type := queued | running | completed | failed.

Definition statusEqb (a b : PreloadJobStatus) : bool :=
  match a, b with
  | queued, queued | running, running | completed, completed | failed, failed => true
  | _, _ => false
  end.

Record JobRequest := {
  req_baseUrl : string;
  req_format : string;
  req_maxPages : Z;
  req_maxDiscover : Z;
  req_maxDepth : Z;
  req_concurrency : Z;
  req_saveLocal : bool
}.

Record JobProgress := {
  prog_discovered : nat;
  prog_total : nat;
  prog_completed : nat;
  prog_failed : nat
}.

(** A document of the result: its summary, its content and its index. *)
Record ResultDocument := {
  rdoc_summary : PreloadDocSummary;
  rdoc_content : string;
  rdoc_index : option PreloadDocIndex
}.

Record PreloadJobResult := {
  res_baseUrl : string;
  res_discovered : nat;
  res_preloaded : nat;
  res_failed : nat;
  res_items : list PreloadItem;
  res_documents : list ResultDocument;
  res_siteIndex : PreloadSiteIndex;
  res_docIndexes : gmap string PreloadDocIndex;
  res_errors : list (string * string);
  res_diagnostics : DocsetPreload.Diagnostics;
  res_concurrency : Z;
  res_localOutput : PreloadLocal.LocalWriteResult
}.

(** Time stamps are kept as milliseconds since the epoch: [toISOString]
    gives strings of one width, whose order under [localeCompare] is that of
    the instants, and [new Date(s).getTime()] gives the instant back. *)
Record PreloadJob := {
  job_id : string;
  job_status : PreloadJobStatus;
  job_createdAt : Z;
  job_updatedAt : Z;
  job_request : JobRequest;
  job_progress : JobProgress;
  job_result : option PreloadJobResult;
  job_error : option string
}.

Record PersistedJobSnapshot := {
  snap_id : string;
  snap_status : PreloadJobStatus;
  snap_createdAt : Z;
  snap_updatedAt : Z;
  snap_request : JobRequest;
  snap_progress : JobProgress;
  snap_error : option string
}.

Record JobsListEntry := {
  entry_id : string;
  entry_status : PreloadJobStatus;
  entry_updatedAt : Z
}.

(** The snapshots on the disk: [local/<id>/job.json] for each job and the
    list [local/jobs.json]; [written] is the history of the snapshots
    written to a [job.json], the oldest first. *)
Record JobStore := {
  jobFiles : gmap string PersistedJobSnapshot;
  jobsList : list JobsListEntry;
  written : list PersistedJobSnapshot
}.

(** What the file system does with the two files that one call of
    [writeJobSnapshot] writes: both are written; or the call throws at
    [job.json] (the directory cannot be made, or the file cannot be
    written) and nothing is written; or it throws at [jobs.json], after
    [job.json] was written. *)
Inductive WriteOutcome : Type := Written | JobFileFails | ListFileFails.

(** The store after the call, and [true] when the call returns, [false]
    when it throws. *)
Definition writeJobSnapshot (s : JobStore) (fs : WriteOutcome)
    (snapshot : PersistedJobSnapshot) : JobStore * bool :=
  match fs with
  | JobFileFails => (s, false)
  | ListFileFails =>
      ({| jobFiles := <[snap_id snapshot := snapshot]> (jobFiles s);
          jobsList := jobsList s;
          written := written s ++ [snapshot] |}, false)
  | Written =>
      let next := filter (fun entry => negb (String.eqb (entry_id entry) (snap_id snapshot)))
                         (jobsList s) in
      let next := next ++ [{| entry_id := snap_id snapshot;
                              entry_status := snap_status snapshot;
                              entry_updatedAt := snap_updatedAt snapshot |}] in
      ({| jobFiles := <[snap_id snapshot := snapshot]> (jobFiles s);
          jobsList := sortBy (fun a b => (entry_updatedAt b - entry_updatedAt a)%Z) next;
          written := written s ++ [snapshot] |}, true)
  end.

Definition readJobSnapshot (s : JobStore) (id : string) : option PersistedJobSnapshot :=
  jobFiles s !! id.

Definition readJobsList (s : JobStore) : list JobsListEntry := jobsList s.

(** [try { await writeJobSnapshot(snapshot) } catch (error) { console.error(...) }]:
    the error of a write that fails is logged and the caller goes on, with
    the store as the failed call left it. *)
Definition safeWriteJobSnapshot (s : JobStore) (fs : WriteOutcome)
    (snapshot : PersistedJobSnapshot) : JobStore :=
  (writeJobSnapshot s fs snapshot).1.

Definition snapshotOf (job : PreloadJob) : PersistedJobSnapshot :=
  {| snap_id := job_id job;
     snap_status := job_status job;
     snap_createdAt := job_createdAt job;
     snap_updatedAt := job_updatedAt job;
     snap_request := job_request job;
     snap_progress := job_progress job;
     snap_error := job_error job |}.

(** *** The table of the jobs

    The [Map] from identifiers to job objects, in insertion order; the key
    of a job is its [id]. *)

Definition getJob (jobs : list PreloadJob) (id : string) : option PreloadJob :=
  find (fun job => String.eqb (job_id job) id) jobs.

Definition deleteJob (jobs : list PreloadJob) (id : string) : list PreloadJob :=
  filter (fun job => negb (String.eqb (job_id job) id)) jobs.


Definition ttlMs : Z := 1000 * 60 * 60.
Definition maxJobs : nat := 25.

(** The second loop of [prunePreloadJobs], over the jobs sorted by
    [updatedAt]. *)
Fixpoint evictOldest (sorted : list PreloadJob) (jobs : list PreloadJob) : list PreloadJob :=
  match sorted with
  | [] => jobs
  | job :: rest =>
      if (length jobs <=? maxJobs)%nat then jobs
      else if statusEqb (job_status job) running then evictOldest rest jobs
      else evictOldest rest (deleteJob jobs (job_id job))
  end.

(** [now] is [Date.now()]. *)
Definition prunePreloadJobs (now : Z) (jobs : list PreloadJob) : list PreloadJob :=
  let jobs :=
    filter (fun job =>
              negb ((ttlMs <? now - job_updatedAt job)%Z &&
                    negb (statusEqb (job_status job) running))) jobs in
  if (length jobs <=? maxJobs)%nat then jobs
  else
    let sorted := sortBy (fun a b => (job_updatedAt a - job_updatedAt b)%Z) jobs in
    evictOldest sorted jobs.

(** *** Requests and answers *)



Inductive JobResultState : Type :=
| StateCompleted (result : PreloadJobResult)
| StateFailed (error : string)
| StateUnfinished (error : string)
| StateNotFound (error : string).

Record JobStatusView := {
  view_id : string;
  view_status : PreloadJobStatus;
  view_createdAt : option Z;
  view_updatedAt : option Z;
  view_request : option JobRequest;
  view_progress : option JobProgress;
  view_error : option string;
  view_hasResult : bool;
  view_message : option string
}.

(** The page fetched by [fetchDocumentationMarkdown]. *)
Record FetchedDocument := {
  fetched_url : string;
  fetched_docsetType : string;
  fetched_markdown : string
}.

(** The collaborators of the job manager, on a world [E]: the clock, the
    source of identifiers, and the functions it imports. A function that
    can throw gives the message of the error on the left; so does one that
    answers [{ ok: false, error }]. [createLocalWriteSession] answers
    [{ ok, session, result }]. [snapshotWrite] is the file system under one
    call of [writeJobSnapshot]. *)
Class JobEnvironment (E : Type) := {
  Session : Type;
  docsetTypes : list string;
  dateNow : E -> Z;
  snapshotWrite : E -> E * WriteOutcome;
  randomUUID : E -> E * string;
  canUseLocalFilesystem : E -> E * bool;
  discoverDocumentationUrls :
    E -> string -> DocsetPreload.DiscoverOptions -> E * (string + DocsetPreload.DiscoverResult);
  fetchDocumentationMarkdown :
    E -> string -> option string -> option string -> E * (string + FetchedDocument);
  createLocalWriteSession :
    E -> string -> E * (bool * option Session * PreloadLocal.LocalWriteResult);
  writeScrapedDocJson : E -> Session -> PreloadItem -> E * (string + string);
  finalizeScrapedJsonl : E -> Session -> E * (string + string);
  buildPreloadBundle : E -> string -> list PreloadItem -> string + PreloadBundle;
  writePreloadBundleToLocal :
    E -> PreloadBundle -> PreloadLocal.LocalWriteResult -> E * PreloadLocal.LocalWriteResult
}.

Section Manager.
Context {E : Type} `{JobEnvironment E}.

Record State := {
  preloadJobs : list PreloadJob;
  store : JobStore;
  env : E
}.

Definition withJobs (st : State) (jobs : list PreloadJob) : State :=
  {| preloadJobs := jobs; store := store st; env := env st |}.

Definition withEnv (st : State) (e : E) : State :=
  {| preloadJobs := preloadJobs st; store := store st; env := e |}.


























Definition isTerminal (status : PreloadJobStatus) : bool :=
  statusEqb status completed || statusEqb status failed.

Definition getPreloadJobStatus (st : State) (id : string) : State * option JobStatusView :=
  let st := withJobs st (prunePreloadJobs (dateNow (env st)) (preloadJobs st)) in
  match getJob (preloadJobs st) id with
  | Some job =>
      (st, Some {| view_id := job_id job; view_status := job_status job;
                   view_createdAt := Some (job_createdAt job);
                   view_updatedAt := Some (job_updatedAt job);
                   view_request := Some (job_request job);
                   view_progress := Some (job_progress job);
                   view_error := job_error job;
                   view_hasResult := match job_result job with Some _ => true | None => false end;
                   view_message := None |})
  | None =>
      match readJobSnapshot (store st) id with
      | Some persisted =>
          (st, Some {| view_id := snap_id persisted; view_status := snap_status persisted;
                       view_createdAt := Some (snap_createdAt persisted);
                       view_updatedAt := Some (snap_updatedAt persisted);
                       view_request := Some (snap_request persisted);
                       view_progress := Some (snap_progress persisted);
                       view_error := snap_error persisted;
                       view_hasResult := statusEqb (snap_status persisted) completed;
                       view_message := None |})
      | None =>
          match find (fun entry => String.eqb (entry_id entry) id) (readJobsList (store st)) with
          | Some listEntry =>
              if negb (isTerminal (entry_status listEntry))
              then (st, Some {| view_id := id; view_status := entry_status listEntry;
                                view_createdAt := None; view_updatedAt := None;
                                view_request := None; view_progress := None;
                                view_error := None; view_hasResult := false;
                                view_message :=
                                  Some "Job exists but is unfinished (from jobs.json list)." |})
              else (st, None)
          | None => (st, None)
          end
      end
  end.

Definition getPreloadJobResult (st : State) (id : string) : State * JobResultState :=
  let st := withJobs st (prunePreloadJobs (dateNow (env st)) (preloadJobs st)) in
  match getJob (preloadJobs st) id with
  | Some job =>
      if statusEqb (job_status job) failed
      then (st, StateFailed (orElse (default EmptyString (job_error job)) "Preload job failed."))
      else
        match statusEqb (job_status job) completed, job_result job with
        | true, Some result => (st, StateCompleted result)
        | _, _ => (st, StateUnfinished "Preload job is not completed yet.")
        end
  | None =>
      match readJobSnapshot (store st) id with
      | Some persisted =>
          if statusEqb (snap_status persisted) failed
          then (st, StateFailed (orElse (default EmptyString (snap_error persisted))
                                        "Preload job failed."))
          else if statusEqb (snap_status persisted) completed
          then (st, StateNotFound
                      "Preload job completed but its result has expired and is no longer available.")
          else if negb (isTerminal (snap_status persisted))
          then (st, StateUnfinished
                      "Preload job exists but is unfinished (from jobs.json list).")
          else (st, StateNotFound "Preload job not found.")
      | None => (st, StateNotFound "Preload job not found.")
      end
  end.

End Manager.
End PreloadJobManager.

(** ** An environment of the job manager for the worked examples

    The world is the disk of the local store. The clock stands at 1000, the
    discovery runs on the offline network, the pages are those that [fetch]
    gives, the bundle is built with the text functions of the examples, the
    scratch files of the job are always written, and every write of a
    snapshot has the outcome [fs]. *)
Module ExampleJobs.
Import PreloadTypes PreloadJobManager.

Definition sessionOutput (id : string) : PreloadLocal.LocalWriteResult :=
  {| PreloadLocal.enabled := true;
     PreloadLocal.directory := "local/" +:+ id;
     PreloadLocal.writtenDocs := 0;
     PreloadLocal.writtenIndexes := 0;
     PreloadLocal.siteIndexFile := "site-index.json";
     PreloadLocal.docsJsonDir := "local/" +:+ id +:+ "/docs-json";
     PreloadLocal.jsonlFile := "scraped.jsonl";
     PreloadLocal.errors := [] |}.

Definition environment (fetch : string -> option string -> string + FetchedDocument)
    (fs : WriteOutcome) : JobEnvironment Disk :=
  {| Session := unit;
     docsetTypes := ["apple"; "docusaurus"; "mkdocs"; "sphinx"; "typedoc"; "jsdoc";
                     "rustdoc"; "godoc"; "pdoc"; "html"; "generic"];
     dateNow := fun _ => 1000%Z;
     snapshotWrite := fun e => (e, fs);
     randomUUID := fun e => (e, "job-1");
     canUseLocalFilesystem := fun e => (e, true);
     discoverDocumentationUrls := fun e baseUrl options =>
       match (DocsetPreload.discoverDocumentationUrls (H := SimpleUrl.api) (H0 := noParsers)
                (H1 := offlineNetwork) tt baseUrl options).2 with
       | DocsetPreload.Returns result => (e, inr result)
       | _ => (e, inl "Invalid URL")
       end;
     fetchDocumentationMarkdown := fun e baseUrl path _ => (e, fetch baseUrl path);
     createLocalWriteSession := fun e id => (e, (true, Some tt, sessionOutput id));
     writeScrapedDocJson := fun e _ _ => (e, inr "doc.json");
     finalizeScrapedJsonl := fun e _ => (e, inr "scraped.jsonl");
     buildPreloadBundle := fun _ baseUrl items =>
       match Preload.buildPreloadBundle (H := codeUnitCollation)
               (H0 := ExampleText.emptyDocuments) 1000 baseUrl items with
       | Some bundle => inr bundle
       | None => inl "Invalid URL"
       end;
     writePreloadBundleToLocal := fun e bundle result =>
       PreloadLocal.writePreloadBundleToLocal (H := codeUnitCollation) (H0 := SimpleUrl.api)
         (H1 := plainLocalText) 1000 e bundle result |}.

(** No page can be fetched. *)
Definition unreachable : JobEnvironment Disk :=
  environment (fun _ _ => inl "fetch failed") Written.


(** Every page is fetched, and is empty. *)
Definition reachable : JobEnvironment Disk :=
  environment (fun baseUrl path =>
                 inr {| fetched_url := baseUrl +:+ default EmptyString path;
                        fetched_docsetType := "generic";
                        fetched_markdown := EmptyString |}) Written.

Definition emptyDisk : Disk :=
  {| siteIndexFiles := ∅; contentFiles := ∅; docIndexFiles := ∅; sitesIndexFile := None |}.

Definition emptyStore : JobStore := {| jobFiles := ∅; jobsList := []; written := [] |}.


End ExampleJobs.

(** ** src/lib/fetch.ts: the pacing of the requests to a host

    [acquireHost] chains promises: the call number [i] makes a promise
    [current] that its [release] resolves, a promise [gated] that runs the
    gate once the promise found in [hostLocks] is resolved, and stores
    [gated.then(() => current)] in [hostLocks]. The promise stored by the
    call [i] is resolved when the call [i] is released, so it is kept as
    the number [i]. The event loop is a sequence of timed events, each a
    piece of code that runs without interruption: a call of [acquireHost],
    the start of the gate of a call whose previous promise is resolved, the
    timer of a sleeping call, a call of [release]. The clock [Date.now()]
    never goes back and a timer set for [ms] milliseconds does not fire
    before they have passed. *)
Module Fetch.

Definition DEFAULT_MIN_INTERVAL_MS : Z := 300.
Definition DEFAULT_TIMEOUT_MS : Z := 20000.

Definition getHostKey `{UrlApi} (url : string) : string :=
  match newURL url with
  | Some parsed => hostname parsed
  | None => "default"
  end.

(** Where a call of [acquireHost] stands: its gate has not started, it
    sleeps until the timer set for [wake], it has passed the gate and its
    caller holds [release], or [release] was called. *)
Inductive Phase : Type :=
| Waiting
| Sleeping (wake : Z)
| Holding
| Released.

Record Acquire := {
  acq_host : string;
  acq_minIntervalMs : Z;
  acq_previous : option nat;
  acq_phase : Phase
}.

(** An acquisition: the call, and the time written to [hostLastRequestAt]. *)
Record Acquisition := {
  at_call : nat;
  at_host : string;
  at_minIntervalMs : Z;
  at_time : Z
}.

(** The two maps of the module, the calls made so far, the clock, and the
    history of the acquisitions, the latest first. *)
Record Scheduler := {
  calls : list Acquire;
  hostLocks : gmap string nat;
  hostLastRequestAt : gmap string Z;
  clock : Z;
  acquisitions : list Acquisition
}.

Definition initial : Scheduler :=
  {| calls := []; hostLocks := ∅; hostLastRequestAt := ∅; clock := 0; acquisitions := [] |}.

Inductive Event : Type :=
| CallAcquire (host : string) (minIntervalMs : Z)
| EnterGate (call : nat)
| TimerFires (call : nat)
| CallRelease (call : nat).

Definition withPhase (phase : Phase) (c : Acquire) : Acquire :=
  {| acq_host := acq_host c; acq_minIntervalMs := acq_minIntervalMs c;
     acq_previous := acq_previous c; acq_phase := phase |}.

(** [previous] is resolved: there was no promise in [hostLocks], or the
    call that stored it is released. *)
Definition previousResolved (s : Scheduler) (c : Acquire) : bool :=
  match acq_previous c with
  | None => true
  | Some p =>
      match calls s !! p with
      | Some {| acq_phase := Released |} => true
      | _ => false
      end
  end.

(** [hostLastRequestAt.set(host, Date.now())], after which [gated] is
    resolved and [acquireHost] returns [release]. *)
Definition passGate (s : Scheduler) (i : nat) (c : Acquire) (t : Z) : Scheduler :=
  {| calls := alter (withPhase Holding) i (calls s);
     hostLocks := hostLocks s;
     hostLastRequestAt := <[acq_host c := t]> (hostLastRequestAt s);
     clock := t;
     acquisitions := {| at_call := i; at_host := acq_host c;
                        at_minIntervalMs := acq_minIntervalMs c; at_time := t |}
                     :: acquisitions s |}.

Definition setPhase (s : Scheduler) (i : nat) (phase : Phase) (t : Z) : Scheduler :=
  {| calls := alter (withPhase phase) i (calls s);
     hostLocks := hostLocks s;
     hostLastRequestAt := hostLastRequestAt s;
     clock := t;
     acquisitions := acquisitions s |}.

(** The event [e] at the time [t]; [None] when it cannot happen then. *)
Definition step (s : Scheduler) (t : Z) (e : Event) : option Scheduler :=
  if (t <? clock s)%Z then None
  else
    match e with
    | CallAcquire host minIntervalMs =>
        Some {| calls := calls s ++ [{| acq_host := host;
                                        acq_minIntervalMs := minIntervalMs;
                                        acq_previous := hostLocks s !! host;
                                        acq_phase := Waiting |}];
                hostLocks := <[host := length (calls s)]> (hostLocks s);
                hostLastRequestAt := hostLastRequestAt s;
                clock := t;
                acquisitions := acquisitions s |}
    | EnterGate i =>
        c ← calls s !! i;
        match acq_phase c with
        | Waiting =>
            if previousResolved s c
            then
              let last := default 0%Z (hostLastRequestAt s !! acq_host c) in
              let elapsed := (t - last)%Z in
              let waitFor := Z.max 0 (acq_minIntervalMs c - elapsed) in
              if (0 <? waitFor)%Z
              then Some (setPhase s i (Sleeping (t + waitFor)) t)
              else Some (passGate s i c t)
            else None
        | _ => None
        end
    | TimerFires i =>
        c ← calls s !! i;
        match acq_phase c with
        | Sleeping wake => if (wake <=? t)%Z then Some (passGate s i c t) else None
        | _ => None
        end
    | CallRelease i =>
        c ← calls s !! i;
        match acq_phase c with
        | Holding => Some (setPhase s i Released t)
        | _ => None
        end
    end.

Fixpoint run (s : Scheduler) (events : list (Z * Event)) : option Scheduler :=
  match events with
  | [] => Some s
  | (t, e) :: rest => s' ← step s t e; run s' rest
  end.

(** The latest acquisition of a host in a history. *)
Fixpoint lastAcquisition (host : string) (log : list Acquisition) : option Acquisition :=
  match log with
  | [] => None
  | a :: older => if String.eqb (at_host a) host then Some a else lastAcquisition host older
  end.

(** Each acquisition of the history comes, after the one before it for the
    same host, at least the interval of its call later, and from a later
    call. *)
Fixpoint Paced (log : list Acquisition) : Prop :=
  match log with
  | [] => True
  | a :: older =>
      match lastAcquisition (at_host a) older with
      | Some b => (at_time b + at_minIntervalMs a <= at_time a)%Z /\ (at_call b < at_call a)%nat
      | None => True
      end /\ Paced older
  end.

End Fetch.


(** * The predicates of the statements and the example data *)

(** ** Searching the local store *)
Section SearchExamples.
Import JsString JsArray JsNumber PreloadTypes LocalDocs.

(** A site with two documents whose titles contain "api". *)
Definition exampleDoc (id title file : string) : PreloadDocSummary :=
  {| doc_id := id; doc_path := "/" +:+ file;
     doc_url := "https://docs.example.com/" +:+ file;
     doc_docsetType := "generic"; doc_title := title; doc_description := "";
     doc_contentFile := file +:+ ".md"; doc_indexFile := file +:+ ".index.json" |}.

Definition exampleSite : PreloadSiteIndex :=
  {| si_generatedAt := 0; si_baseUrl := "https://docs.example.com"; si_totalDocs := 2;
     si_docs := [exampleDoc "doc-00001" "API" "api";
                 exampleDoc "doc-00002" "API guide" "guide"] |}.

Definition exampleDisk : Disk :=
  {| siteIndexFiles := {[ ("s", "site-index.json") := exampleSite ]};
     contentFiles := {[ ("s", "api.md") := "Reference.";
                        ("s", "guide.md") := "See the api" ]};
     docIndexFiles := ∅;
     sitesIndexFile := None |}.

(** A page whose content holds the word needle between 150 letters a and
    150 letters b. *)
Definition longContent : string :=
  repeatChar 150 "a"%char +:+ " needle " +:+ repeatChar 150 "b"%char.

Definition longDisk : Disk :=
  {| siteIndexFiles :=
       {[ ("s", "site-index.json") :=
            {| si_generatedAt := 0; si_baseUrl := "https://docs.example.com";
               si_totalDocs := 1;
               si_docs := [exampleDoc "doc-00001" "Long page" "long"] |} ]};
     contentFiles := {[ ("s", "long.md") := longContent ]};
     docIndexFiles := ∅;
     sitesIndexFile := None |}.

(** [s] without its first [i] characters. *)
Definition dropChars (i : nat) (s : string) : string :=
  substring i (String.length s - i) s.

(** [i] is the first position at which [q] occurs in [s]. *)
Definition firstMatch (s q : string) (i : nat) : Prop :=
  startsWith (dropChars i s) q = true /\
  forall j, (j < i)%nat -> startsWith (dropChars j s) q = false.

(** The excerpt of [content] around the [n] characters at position [i]:
    from 110 characters before them to 110 characters after them, each run
    of white space made one space, without white space at the ends, and
    with "..." at an end where the content goes on. *)
Definition window110 (content : string) (i n : nat) : string :=
  (if (110 <? i)%nat then "..." else "") +:+
  trim (collapseSpaces
          (slice content (i - 110) (Nat.min (String.length content) (i + n + 110)))) +:+
  (if (i + n + 110 <? String.length content)%nat then "..." else "").

(** [a] does not score less than [b]. *)
Definition byScore (a b : LocalSearchResult) : Prop := (res_score b <= res_score a)%Z.

End SearchExamples.

(** ** Discovery *)
Section DiscoveryStatements.
Import JsString JsArray JsNumber DocsetPreload.
Context `{UrlApi}.

(** A URL that the admission rules let in. *)
Definition admissible (base : URL) (sameHostOnly : bool) (url : string) : Prop :=
  isLikelyDocumentationPage url = true /\ isAllowedUrl url base sameHostOnly = true.

(** What the loops keep true of the discovered set: it has no repetition,
    it is within the limit, and every URL that was not there at the start
    was admitted by the rules. *)
Definition grownFrom (base : URL) (sameHostOnly : bool) (maxDiscover : nat)
    (before after : list string) : Prop :=
  NoDup after /\
  (length after <= maxDiscover)%nat /\
  (exists added, after = before ++ added /\
                 Forall (admissible base sameHostOnly) added).

(** A URL whose path ends, case folded, with an extension of the list of
    the files that are not documents. *)
Definition hasNonDocExtension (url : string) : bool :=
  match newURL url with
  | None => false
  | Some parsed =>
      existsb (fun ext => endsWith (toLowerCase (pathname parsed)) ext) NON_DOC_EXTENSIONS
  end.

End DiscoveryStatements.

(** ** Bundles *)
Section SortStatements.
Context {A : Type} (cmp : A -> A -> Z).

(** [a] is not put after [b] by the comparison. *)
Definition sortsBefore (a b : A) : Prop := (cmp a b <= 0)%Z.

End SortStatements.

(** No two items of the array have URLs that compare as equal. *)
Definition noEqualUrls `{Collation} (items : list PreloadTypes.PreloadItem) : Prop :=
  forall i j a b, items !! i = Some a -> items !! j = Some b -> i <> j ->
    localeCompare (PreloadTypes.item_url a) (PreloadTypes.item_url b) <> 0%Z.

(** Two pages fetched at the same URL, one by its path and one by its
    absolute URL. *)
Definition pageByPath : PreloadTypes.PreloadItem :=
  {| PreloadTypes.item_path := "/a";
     PreloadTypes.item_url := "https://docs.example.com/a";
     PreloadTypes.item_docsetType := "generic";
     PreloadTypes.item_content := "" |}.

Definition pageByUrl : PreloadTypes.PreloadItem :=
  {| PreloadTypes.item_path := "https://docs.example.com/a";
     PreloadTypes.item_url := "https://docs.example.com/a";
     PreloadTypes.item_docsetType := "generic";
     PreloadTypes.item_content := "" |}.

Definition pageB : PreloadTypes.PreloadItem :=
  {| PreloadTypes.item_path := "/b";
     PreloadTypes.item_url := "https://docs.example.com/b";
     PreloadTypes.item_docsetType := "generic";
     PreloadTypes.item_content := "" |}.

(** The (path, identifier) pairs of the documents of a bundle. *)
Definition assignedIds (bundle : option PreloadTypes.PreloadBundle)
  : option (list (string * string)) :=
  option_map (fun b => map (fun d => (PreloadTypes.doc_path d, PreloadTypes.doc_id d))
                           (PreloadTypes.si_docs (PreloadTypes.siteIndex b))) bundle.

(** ** The local store *)
Section StoreStatements.
Import JsString JsArray JsNumber PreloadTypes PreloadLocal.


End StoreStatements.





Definition sessionResult : PreloadLocal.LocalWriteResult :=
  {| PreloadLocal.enabled := true; PreloadLocal.directory := "local/job";
     PreloadLocal.writtenDocs := 0; PreloadLocal.writtenIndexes := 0;
     PreloadLocal.siteIndexFile := "site-index.json";
     PreloadLocal.docsJsonDir := "local/job/docs-json";
     PreloadLocal.jsonlFile := "scraped.jsonl"; PreloadLocal.errors := [] |}.












Definition persisted (now : Z) (d : PreloadTypes.Disk) (items : list PreloadTypes.PreloadItem)
  : PreloadTypes.Disk :=
  match Preload.buildPreloadBundle (H := codeUnitCollation) (H0 := ExampleText.plainParagraphs)
          now "https://docs.example.com" items with
  | Some bundle =>
      (PreloadLocal.writePreloadBundleToLocal (H := codeUnitCollation) (H0 := SimpleUrl.api)
         (H1 := wordsLocalText) now d bundle sessionResult).1
  | None => d
  end.





(** ** Jobs *)
Section JobStatements.
Import JsString JsArray JsNumber PreloadTypes PreloadJobManager.
Context {E : Type} `{JobEnvironment E}.
Local Abbreviation State := (@State E).

(** [a] was updated no later than [b]. *)
Definition updatedBefore (a b : PreloadJob) : Prop := (job_updatedAt a <= job_updatedAt b)%Z.

Definition isRunning (job : PreloadJob) : bool := statusEqb (job_status job) running.

(** A job that is running, or that was updated within the last hour. *)
Definition survivesTtl (now : Z) (job : PreloadJob) : bool :=
  isRunning job || (now - job_updatedAt job <=? ttlMs)%Z.

(** The job [id] is in the table with the status [status]; the snapshots
    written since the history [before] all have the status [running]; and
    the snapshot of the job on the disk is [onDisk], as before, or one of
    a running job. *)
Definition jobAt (id : string) (status : PreloadJobStatus)
    (before : list PersistedJobSnapshot) (onDisk : option PersistedJobSnapshot)
    (st : State) : Prop :=
  (exists job, getJob (preloadJobs st) id = Some job /\ job_status job = status) /\
  (exists since, written (store st) = before ++ since /\
                 Forall (fun s => snap_status s = running) since) /\
  (readJobSnapshot (store st) id = onDisk \/
   exists s, readJobSnapshot (store st) id = Some s /\ snap_status s = running).


End JobStatements.

(** A job of the table, for the examples. *)
Definition exampleJob (id : string) (status : PreloadJobManager.PreloadJobStatus)
    (updatedAt : Z) : PreloadJobManager.PreloadJob :=
  {| PreloadJobManager.job_id := id;
     PreloadJobManager.job_status := status;
     PreloadJobManager.job_createdAt := 0;
     PreloadJobManager.job_updatedAt := updatedAt;
     PreloadJobManager.job_request :=
       {| PreloadJobManager.req_baseUrl := "https://docs.example.com";
          PreloadJobManager.req_format := "json";
          PreloadJobManager.req_maxPages := 200;
          PreloadJobManager.req_maxDiscover := 300;
          PreloadJobManager.req_maxDepth := 2;
          PreloadJobManager.req_concurrency := 4;
          PreloadJobManager.req_saveLocal := true |};
     PreloadJobManager.job_progress :=
       {| PreloadJobManager.prog_discovered := 0; PreloadJobManager.prog_total := 0;
          PreloadJobManager.prog_completed := 0; PreloadJobManager.prog_failed := 0 |};
     PreloadJobManager.job_result := None;
     PreloadJobManager.job_error := None |}.



(** ** The pacing of the requests *)
Section SchedulerStatements.
Import Fetch.

(** What every reachable state of the scheduler satisfies. *)
Record Invariant (s : Scheduler) : Prop := {
  inv_previous : forall i c, calls s !! i = Some c ->
    match acq_previous c with
    | Some p =>
        (p < i)%nat /\
        (exists cp, calls s !! p = Some cp /\ acq_host cp = acq_host c) /\
        forall k ck, calls s !! k = Some ck -> acq_host ck = acq_host c ->
                     (k < i)%nat -> (k <= p)%nat
    | None =>
        forall k ck, calls s !! k = Some ck -> acq_host ck = acq_host c -> ~ (k < i)%nat
    end;
  inv_locks : forall h,
    match hostLocks s !! h with
    | Some i =>
        (exists c, calls s !! i = Some c /\ acq_host c = h) /\
        forall k ck, calls s !! k = Some ck -> acq_host ck = h -> (k <= i)%nat
    | None => forall k ck, calls s !! k = Some ck -> acq_host ck <> h
    end;
  inv_fifo : forall p j cp cj,
    (p < j)%nat -> calls s !! p = Some cp -> calls s !! j = Some cj ->
    acq_host cp = acq_host cj -> acq_phase cj <> Waiting -> acq_phase cp = Released;
  inv_log : forall a, a ∈ acquisitions s ->
    exists c, calls s !! at_call a = Some c /\ acq_host c = at_host a /\
              (acq_phase c = Holding \/ acq_phase c = Released);
  inv_last : forall h,
    hostLastRequestAt s !! h = at_time <$> lastAcquisition h (acquisitions s);
  inv_sleep : forall j c wake, calls s !! j = Some c -> acq_phase c = Sleeping wake ->
    (default 0 (hostLastRequestAt s !! acq_host c) + acq_minIntervalMs c <= wake)%Z;
  inv_paced : Paced (acquisitions s)
}.

End SchedulerStatements.

(** Two requests for one host and one for another, made together: the
    first request of each host passes at once, the second of the first
    host waits for the release of the first and then for its timer. *)
Definition pacedRun : list (Z * Fetch.Event) :=
  [ (1000, Fetch.CallAcquire "a.example" 300);
    (1000, Fetch.CallAcquire "a.example" 300);
    (1000, Fetch.CallAcquire "b.example" 300);
    (1001, Fetch.EnterGate 0);
    (1001, Fetch.EnterGate 2);
    (1050, Fetch.CallRelease 0);
    (1050, Fetch.EnterGate 1);
    (1301, Fetch.TimerFires 1) ]%Z.

Definition pacedState : Fetch.Scheduler :=
  default Fetch.initial (Fetch.run Fetch.initial pacedRun).


(** * Properties of the embedded code *)

(** ** Strings *)
Section StringFacts.
Import JsString.




Lemma includes_indexOf (s q : string) : includes s q = (0 <=? indexOf s q)%Z.
Proof.
  unfold includes, indexOf. destruct (indexOfNat s q); [|reflexivity].
  symmetry. apply Z.leb_le. lia.
Qed.

Lemma substring_all (s : string) : substring 0 (String.length s) s = s.
Proof. induction s as [|c s IH]; simpl; [reflexivity | rewrite IH; reflexivity]. Qed.

Lemma dropChars_0 (s : string) : dropChars 0 s = s.
Proof. unfold dropChars. rewrite Nat.sub_0_r. apply substring_all. Qed.

Lemma dropChars_S (i : nat) (c : ascii) (s : string) :
  dropChars (S i) (String c s) = dropChars i s.
Proof. reflexivity. Qed.

(** [indexOf] gives the first position of a match. *)
Lemma indexOfNat_firstMatch (s q : string) (i : nat) :
  indexOfNat s q = Some i -> firstMatch s q i.
Proof.
  revert i. induction s as [|c s IH]; intros i Hi.
  - change (indexOfNat "" q) with (if startsWith "" q then Some 0%nat else None) in Hi.
    destruct (startsWith "" q) eqn:Hq; [|discriminate].
    injection Hi as <-. split; [rewrite dropChars_0; exact Hq | intros j Hj; lia].
  - change (indexOfNat (String c s) q)
      with (if startsWith (String c s) q then Some 0%nat
            else option_map S (indexOfNat s q)) in Hi.
    destruct (startsWith (String c s) q) eqn:Hq.
    + injection Hi as <-. split; [rewrite dropChars_0; exact Hq | intros j Hj; lia].
    + destruct (indexOfNat s q) as [i'|]; [|discriminate].
      injection Hi as <-. destruct (IH i' eq_refl) as [Hat Hbefore].
      split; [rewrite dropChars_S; exact Hat|].
      intros [|j] Hj; [rewrite dropChars_0; exact Hq|].
      rewrite dropChars_S. apply Hbefore. lia.
Qed.

End StringFacts.

(** ** Arrays *)
Section ArrayFacts.
Import JsArray.
Context {A : Type} (cmp : A -> A -> Z).

Lemma insertBy_Permutation (x : A) (l : list A) : insertBy cmp x l ≡ₚ x :: l.
Proof.
  induction l as [|y l IH]; simpl; [reflexivity|].
  destruct (cmp x y <=? 0)%Z; [reflexivity|].
  rewrite IH. apply Permutation_swap.
Qed.

Lemma sortBy_Permutation (l : list A) : sortBy cmp l ≡ₚ l.
Proof.
  induction l as [|x l IH]; simpl; [reflexivity|].
  rewrite insertBy_Permutation, IH. reflexivity.
Qed.

Lemma elem_of_sortBy (x : A) (l : list A) : x ∈ sortBy cmp l ↔ x ∈ l.
Proof. rewrite sortBy_Permutation. reflexivity. Qed.

Lemma length_sortBy (l : list A) : length (sortBy cmp l) = length l.
Proof. apply Permutation_length, sortBy_Permutation. Qed.

End ArrayFacts.

Section SortedByFacts.
Import JsArray.
Context {A : Type} (cmp : A -> A -> Z) (R : A -> A -> Prop).
Hypothesis cmp_le : forall x y, (cmp x y <= 0)%Z -> R x y.
Hypothesis cmp_gt : forall x y, (0 < cmp x y)%Z -> R y x.
Hypothesis R_trans : forall x y z, R x y -> R y z -> R x z.

Lemma insertBy_sorted_by (x : A) (l : list A) :
  StronglySorted R l -> StronglySorted R (insertBy cmp x l).
Proof.
  induction 1 as [|y l Hl IH Hy]; simpl.
  - repeat constructor.
  - destruct (cmp x y <=? 0)%Z eqn:Hc.
    + apply Z.leb_le, cmp_le in Hc. constructor; [constructor; assumption|].
      constructor; [exact Hc|]. eapply Forall_impl; [exact Hy|].
      intros z Hz. eapply R_trans; eassumption.
    + apply Z.leb_gt, cmp_gt in Hc. constructor; [exact IH|].
      apply Forall_forall. intros z Hz.
      apply (elem_of_Permutation_proper _ _ _ (insertBy_Permutation cmp x l)) in Hz.
      apply elem_of_cons in Hz as [->|Hz]; [exact Hc|].
      rewrite Forall_forall in Hy. auto.
Qed.

(** A sort puts the elements in an order that follows its comparison. *)
Lemma sortBy_sorted_by (l : list A) : StronglySorted R (sortBy cmp l).
Proof.
  induction l as [|x l IH]; simpl; [constructor | apply insertBy_sorted_by, IH].
Qed.

End SortedByFacts.

(** ** Local search (src/lib/local-docs.ts) *)
Section SearchFacts.
Import JsString JsArray JsNumber PreloadTypes LocalDocs.

Lemma computeSearchScore_no_content (title query : string) (ci : Z) :
  (ci < 0)%Z ->
  computeSearchScore title query ci = computeSearchScore title query (-1).
Proof.
  intros Hci. unfold computeSearchScore.
  destruct (0 <=? ci)%Z eqn:E; [apply Z.leb_le in E; lia|]. reflexivity.
Qed.



Lemma orElse_empty_r (s : string) : orElse s "" = s.
Proof. destruct s; reflexivity. Qed.

Lemma includes_nonempty (s q : string) :
  includes s q = true -> q <> "" -> s <> "".
Proof.
  intros Hinc Hq ->. destruct q as [|c q]; [congruence|]. discriminate.
Qed.

Lemma toLowerCase_empty (s : string) : toLowerCase s = "" -> s = "".
Proof. destruct s; [reflexivity | discriminate]. Qed.

Section Ranking.
Context `{Collation}.

Lemma searchDocs_elem (d : Disk) (query nq slug baseUrl : string)
    (docs : list PreloadDocSummary) (rs : list LocalSearchResult)
    (doc : PreloadDocSummary) (content : string) (r : LocalSearchResult) :
  searchDocs d query nq slug baseUrl docs = Some rs ->
  doc ∈ docs ->
  readLocalDocContent d slug (doc_contentFile doc) = Some content ->
  searchDoc query nq slug baseUrl doc content = Some r ->
  r ∈ rs.
Proof.
  revert rs. induction docs as [|doc0 docs IH]; intros rs Hrun Hin Hread Hdoc.
  - inversion Hin.
  - simpl in Hrun.
    destruct (readLocalDocContent d slug (doc_contentFile doc0)) as [c0|] eqn:Hc0;
      [|discriminate].
    destruct (searchDocs d query nq slug baseUrl docs) as [more|] eqn:Hmore;
      [|discriminate].
    simpl in Hrun. injection Hrun as <-.
    apply elem_of_cons in Hin as [->|Hin].
    + rewrite Hread in Hc0. injection Hc0 as <-. rewrite Hdoc. left.
    + specialize (IH more eq_refl Hin Hread Hdoc).
      destruct (searchDoc query nq slug baseUrl doc0 c0); [right|]; exact IH.
Qed.

Lemma searchSlugs_elem (d : Disk) (query nq : string) (slugs : list string)
    (rs : list LocalSearchResult) (slug slug' : string) (si : PreloadSiteIndex)
    (doc : PreloadDocSummary) (content : string) (r : LocalSearchResult) :
  searchSlugs d query nq slugs = Some rs ->
  slug ∈ slugs ->
  loadLocalSiteIndex d (Some slug) = Some (slug', si) ->
  doc ∈ si_docs si ->
  readLocalDocContent d slug (doc_contentFile doc) = Some content ->
  searchDoc query nq slug (si_baseUrl si) doc content = Some r ->
  r ∈ rs.
Proof.
  revert rs. induction slugs as [|s0 slugs IH]; intros rs Hrun Hin Hload Hdoc Hread Hres.
  - inversion Hin.
  - simpl in Hrun.
    destruct (loadLocalSiteIndex d (Some s0)) as [[s0' si0]|] eqn:Hl0; [|discriminate].
    simpl in Hrun.
    destruct (searchDocs d query nq s0 (si_baseUrl si0) (si_docs si0)) as [here|] eqn:Hhere;
      [|discriminate].
    simpl in Hrun.
    destruct (searchSlugs d query nq slugs) as [more|] eqn:Hmore; [|discriminate].
    simpl in Hrun. injection Hrun as <-.
    apply elem_of_app.
    apply elem_of_cons in Hin as [->|Hin].
    + left. rewrite Hload in Hl0. injection Hl0 as <- <-.
      eapply searchDocs_elem; eauto.
    + right. eapply IH; eauto.
Qed.

(** The result pushed for a document whose title alone matches. *)
Lemma searchDoc_title_only (query slug baseUrl : string) (doc : PreloadDocSummary)
    (content : string) :
  query <> "" ->
  includes (toLowerCase (doc_title doc)) (toLowerCase query) = true ->
  includes (toLowerCase content) (toLowerCase query) = false ->
  exists r, searchDoc query (toLowerCase query) slug baseUrl doc content = Some r /\
            res_slug r = slug /\ res_docId r = doc_id doc /\
            res_contentMatch r = false /\
            res_snippet r = "Title match: " +:+ doc_title doc.
Proof.
  intros Hq Ht Hc. unfold searchDoc. rewrite orElse_empty_r, Ht.
  rewrite <- includes_indexOf, Hc. simpl. eexists. split; [reflexivity|].
  simpl. repeat split.
  assert (Hne : doc_title doc <> "").
  { intros E. rewrite E in Ht. simpl in Ht.
    apply (includes_nonempty _ _ Ht); [|reflexivity].
    intros E'. apply Hq, toLowerCase_empty, E'. }
  destruct (doc_title doc); [congruence | reflexivity].
Qed.

(** The snippet of a match at the position [i]. *)
Lemma makeSnippet_window (content : string) (i n : nat) :
  makeSnippet content (Z.of_nat i) n = window110 content i n.
Proof.
  unfold makeSnippet, window110. cbv zeta.
  replace (0 <? Z.max 0 (Z.of_nat i - 110))%Z with (110 <? i)%nat
    by (destruct (110 <? i)%nat eqn:Hi;
        [apply Nat.ltb_lt in Hi; symmetry; apply Z.ltb_lt; lia
        |apply Nat.ltb_ge in Hi; symmetry; apply Z.ltb_ge; lia]).
  replace (Z.min (Z.of_nat (String.length content)) (Z.of_nat i + Z.of_nat n + 110)
           <? Z.of_nat (String.length content))%Z
    with (i + n + 110 <? String.length content)%nat
    by (destruct (i + n + 110 <? String.length content)%nat eqn:Hi;
        [apply Nat.ltb_lt in Hi; symmetry; apply Z.ltb_lt; lia
        |apply Nat.ltb_ge in Hi; symmetry; apply Z.ltb_ge; lia]).
  replace (Z.to_nat (Z.max 0 (Z.of_nat i - 110))) with (i - 110)%nat by lia.
  replace (Z.to_nat (Z.min (Z.of_nat (String.length content))
                           (Z.of_nat i + Z.of_nat n + 110)))
    with (Nat.min (String.length content) (i + n + 110)) by lia.
  reflexivity.
Qed.

(** The result pushed for a document whose content matches. *)
Lemma searchDoc_content (query slug baseUrl : string) (doc : PreloadDocSummary)
    (content : string) :
  includes (toLowerCase content) (toLowerCase query) = true ->
  exists i r, firstMatch (toLowerCase content) (toLowerCase query) i /\
            searchDoc query (toLowerCase query) slug baseUrl doc content = Some r /\
            res_slug r = slug /\ res_docId r = doc_id doc /\
            res_contentMatch r = true /\
            res_snippet r = window110 content i (String.length query).
Proof.
  intros Hc. unfold searchDoc. rewrite <- includes_indexOf, Hc.
  rewrite andb_false_r. simpl.
  unfold includes in Hc. unfold indexOf.
  destruct (indexOfNat (toLowerCase content) (toLowerCase query)) as [i|] eqn:Hi;
    [|discriminate].
  exists i. eexists. split; [apply indexOfNat_firstMatch; exact Hi|].
  split; [reflexivity|]. simpl. repeat split. apply makeSnippet_window.
Qed.

(** What a result pushed for a document is. *)
Lemma searchDoc_inv (query slug baseUrl : string) (doc : PreloadDocSummary)
    (content : string) (r : LocalSearchResult) :
  query <> "" ->
  searchDoc query (toLowerCase query) slug baseUrl doc content = Some r ->
  res_slug r = slug /\ res_docId r = doc_id doc /\
  match indexOfNat (toLowerCase content) (toLowerCase query) with
  | Some i => res_snippet r = window110 content i (String.length query)
  | None => includes (toLowerCase (doc_title doc)) (toLowerCase query) = true /\
            res_snippet r = "Title match: " +:+ doc_title doc
  end.
Proof.
  intros Hq Hr.
  destruct (includes (toLowerCase content) (toLowerCase query)) eqn:Hc.
  - destruct (searchDoc_content query slug baseUrl doc content Hc)
      as (i & r' & Hfirst & Hr' & Hs & Hid & _ & Hsn).
    rewrite Hr in Hr'. injection Hr' as <-.
    split; [exact Hs|]. split; [exact Hid|].
    unfold includes in Hc.
    destruct (indexOfNat (toLowerCase content) (toLowerCase query)) as [j|] eqn:Hj;
      [|discriminate].
    assert (i = j) as ->; [|exact Hsn].
    destruct Hfirst as [Hat Hbefore].
    destruct (indexOfNat_firstMatch _ _ _ Hj) as [Hat' Hbefore'].
    destruct (Nat.lt_trichotomy i j) as [Hlt|[Heq|Hgt]]; [|exact Heq|].
    + rewrite (Hbefore' i Hlt) in Hat. discriminate.
    + rewrite (Hbefore j Hgt) in Hat'. discriminate.
  - destruct (includes (toLowerCase (doc_title doc)) (toLowerCase query)) eqn:Ht.
    + destruct (searchDoc_title_only query slug baseUrl doc content Hq Ht Hc)
        as (r' & Hr' & Hs & Hid & _ & Hsn).
      rewrite Hr in Hr'. injection Hr' as <-.
      split; [exact Hs|]. split; [exact Hid|].
      unfold includes in Hc.
      destruct (indexOfNat (toLowerCase content) (toLowerCase query)); [discriminate|].
      auto.
    + exfalso. unfold searchDoc in Hr. rewrite orElse_empty_r, Ht in Hr.
      rewrite <- includes_indexOf, Hc in Hr. discriminate.
Qed.

Lemma searchDocs_inv (d : Disk) (query nq slug baseUrl : string)
    (docs : list PreloadDocSummary) (rs : list LocalSearchResult) (r : LocalSearchResult) :
  searchDocs d query nq slug baseUrl docs = Some rs ->
  r ∈ rs ->
  exists doc content,
    doc ∈ docs /\ readLocalDocContent d slug (doc_contentFile doc) = Some content /\
    searchDoc query nq slug baseUrl doc content = Some r.
Proof.
  revert rs. induction docs as [|doc0 docs IH]; intros rs Hrun Hin; simpl in Hrun.
  - injection Hrun as <-. inversion Hin.
  - destruct (readLocalDocContent d slug (doc_contentFile doc0)) as [c0|] eqn:Hc0;
      [|discriminate].
    destruct (searchDocs d query nq slug baseUrl docs) as [more|] eqn:Hmore;
      [|discriminate].
    simpl in Hrun. injection Hrun as <-.
    destruct (searchDoc query nq slug baseUrl doc0 c0) as [r0|] eqn:Hr0.
    + apply elem_of_cons in Hin as [->|Hin].
      * exists doc0, c0. split; [left | auto].
      * destruct (IH more eq_refl Hin) as (doc & content & Hdoc & Hread & Hres).
        exists doc, content. split; [right; exact Hdoc | auto].
    + destruct (IH more eq_refl Hin) as (doc & content & Hdoc & Hread & Hres).
      exists doc, content. split; [right; exact Hdoc | auto].
Qed.

Lemma searchSlugs_inv (d : Disk) (query nq : string) (slugs : list string)
    (rs : list LocalSearchResult) (r : LocalSearchResult) :
  searchSlugs d query nq slugs = Some rs ->
  r ∈ rs ->
  exists slug slug' si doc content,
    slug ∈ slugs /\ loadLocalSiteIndex d (Some slug) = Some (slug', si) /\
    doc ∈ si_docs si /\ readLocalDocContent d slug (doc_contentFile doc) = Some content /\
    searchDoc query nq slug (si_baseUrl si) doc content = Some r.
Proof.
  revert rs. induction slugs as [|s0 slugs IH]; intros rs Hrun Hin; simpl in Hrun.
  - injection Hrun as <-. inversion Hin.
  - destruct (loadLocalSiteIndex d (Some s0)) as [[s0' si0]|] eqn:Hl0; [|discriminate].
    simpl in Hrun.
    destruct (searchDocs d query nq s0 (si_baseUrl si0) (si_docs si0)) as [here|] eqn:Hhere;
      [|discriminate].
    simpl in Hrun.
    destruct (searchSlugs d query nq slugs) as [more|] eqn:Hmore; [|discriminate].
    simpl in Hrun. injection Hrun as <-.
    apply elem_of_app in Hin as [Hin|Hin].
    + destruct (searchDocs_inv _ _ _ _ _ _ _ _ Hhere Hin) as (doc & content & Hdoc & Hread & Hres).
      exists s0, s0', si0, doc, content. split; [left | auto].
    + destruct (IH more eq_refl Hin) as (slug & slug' & si & doc & content & Hslug & Hrest).
      exists slug, slug', si, doc, content. split; [right; exact Hslug | exact Hrest].
Qed.

Lemma normalizeLimit_range (limit : option JsNumber) :
  (1 <= normalizeLimit limit <= 200)%nat.
Proof.
  unfold normalizeLimit, clampFloor. destruct limit as [[| | |q]|]; lia.
Qed.

Lemma compareResults_le (a b : LocalSearchResult) :
  (compareResults a b <= 0)%Z -> byScore a b.
Proof.
  unfold compareResults, byScore.
  destruct (res_score b =? res_score a)%Z eqn:Hs; simpl; [apply Z.eqb_eq in Hs|]; lia.
Qed.

Lemma compareResults_gt (a b : LocalSearchResult) :
  (0 < compareResults a b)%Z -> byScore b a.
Proof.
  unfold compareResults, byScore.
  destruct (res_score b =? res_score a)%Z eqn:Hs; simpl; [apply Z.eqb_eq in Hs|]; lia.
Qed.

(** C8, as amended. Let [q] be the trimmed query. The search ranks all
    its results, the best score first, and returns the first [limit] of
    them (limit clamped to 1..200, 50 by default), reporting the length of
    the whole ranking as [totalResults]. Every result of the ranking is
    that of a document of a searched site, and the ranking holds a result
    for every document of a searched site whose content can be read and
    whose title or content contains [q] (case folded): when [q] occurs in
    the title and not in the content, its snippet is the placeholder
    "Title match: " followed by the title; when [q] occurs in the content,
    its snippet is the excerpt around the first occurrence, from 110
    characters before the match to 110 after its end, white space
    collapsed and trimmed, with "..." at a cut end. *)
Theorem C8_search_snippet (now : Z) (d : Disk) (options : SearchOptions)
    (out : SearchOutput) :
  let d' := fst (searchLocalDocumentation now d options) in
  let q := trim (opt_query options) in
  let limit := normalizeLimit (opt_limit options) in
  snd (searchLocalDocumentation now d options) = Some out ->
  (1 <= limit <= 200)%nat /\
  (opt_limit options = None -> limit = 50%nat) /\
  (q = "" -> out_results out = []) /\
  exists ranked : list LocalSearchResult,
    out_results out = take limit ranked /\
    out_totalResults out = length ranked /\
    StronglySorted byScore ranked /\
    (forall r, r ∈ ranked ->
       exists (slug slug' : string) (si : PreloadSiteIndex) (doc : PreloadDocSummary)
              (content : string),
         slug ∈ out_searchedSlugs out /\
         loadLocalSiteIndex d' (Some slug) = Some (slug', si) /\
         doc ∈ si_docs si /\
         readLocalDocContent d' slug (doc_contentFile doc) = Some content /\
         res_slug r = slug /\ res_docId r = doc_id doc /\
         match indexOfNat (toLowerCase content) (toLowerCase q) with
         | Some i => res_snippet r = window110 content i (String.length q)
         | None => includes (toLowerCase (doc_title doc)) (toLowerCase q) = true /\
                   res_snippet r = "Title match: " +:+ doc_title doc
         end) /\
    forall (slug slug' : string) (si : PreloadSiteIndex) (doc : PreloadDocSummary)
           (content : string),
      slug ∈ out_searchedSlugs out ->
      loadLocalSiteIndex d' (Some slug) = Some (slug', si) ->
      doc ∈ si_docs si ->
      readLocalDocContent d' slug (doc_contentFile doc) = Some content ->
      (includes (toLowerCase (doc_title doc)) (toLowerCase q) = true ->
       includes (toLowerCase content) (toLowerCase q) = false ->
       exists r, r ∈ ranked /\ res_slug r = slug /\ res_docId r = doc_id doc /\
                 res_snippet r = "Title match: " +:+ doc_title doc) /\
      (includes (toLowerCase content) (toLowerCase q) = true ->
       exists i r, firstMatch (toLowerCase content) (toLowerCase q) i /\
                   r ∈ ranked /\ res_slug r = slug /\ res_docId r = doc_id doc /\
                   res_snippet r = window110 content i (String.length q)).
Proof.
  intros d' q limit Hout.
  split; [apply normalizeLimit_range|].
  split; [intros Hnone; subst limit; rewrite Hnone; reflexivity|].
  subst d' limit. unfold searchLocalDocumentation in *.
  change (trim (opt_query options)) with q in Hout |- *.
  clearbody q. destruct q as [|c q'].
  { simpl in Hout. injection Hout as <-. split; [reflexivity|]. exists []. simpl.
    split; [rewrite take_nil; reflexivity|]. split; [reflexivity|].
    split; [constructor|]. split; [intros r Hr; inversion Hr|].
    intros slug slug' si doc content Hslug. inversion Hslug. }
  split; [discriminate|].
  set (target := match match opt_slug options with
                       | Some s => trim s | None => "" end with
                 | "" => listLocalSlugs now d
                 | String a s0 => (d, [String a s0])
                 end) in *.
  remember (String c q') as q eqn:Hq.
  remember (toLowerCase q) as nq eqn:Hnq.
  destruct target as [d1 targetSlugs]. cbv iota beta in Hout |- *. cbn [fst snd] in Hout |- *.
  destruct (searchSlugs d1 q nq targetSlugs) as [results|] eqn:Hres; [|discriminate].
  simpl in Hout. injection Hout as <-. cbn [out_results out_totalResults out_searchedSlugs].
  subst nq.
  exists (sortBy compareResults results).
  split; [reflexivity|]. split; [reflexivity|].
  split.
  { apply sortBy_sorted_by.
    - apply compareResults_le.
    - apply compareResults_gt.
    - intros x y z. unfold byScore. lia. }
  split.
  { intros r Hr. apply elem_of_sortBy in Hr.
    destruct (searchSlugs_inv _ _ _ _ _ _ Hres Hr)
      as (slug & slug' & si & doc & content & Hslug & Hload & Hdoc & Hread & Hone).
    exists slug, slug', si, doc, content.
    split; [exact Hslug|]. split; [exact Hload|]. split; [exact Hdoc|].
    split; [exact Hread|].
    apply (searchDoc_inv q slug (si_baseUrl si) doc content r); [subst q; discriminate|].
    exact Hone. }
  intros slug slug' si doc content Hslug Hload Hdoc Hread. split.
  - intros Ht Hc.
    destruct (searchDoc_title_only q slug (si_baseUrl si) doc content)
      as (r & Hr & Hs & Hid & _ & Hsn); [subst q; discriminate | exact Ht | exact Hc |].
    exists r. split; [|auto].
    apply elem_of_sortBy. eapply searchSlugs_elem; eauto.
  - intros Hc.
    destruct (searchDoc_content q slug (si_baseUrl si) doc content Hc)
      as (i & r & Hfirst & Hr & Hs & Hid & _ & Hsn).
    exists i, r. split; [exact Hfirst|]. split; [|auto].
    apply elem_of_sortBy. eapply searchSlugs_elem; eauto.
Qed.

End Ranking.

Lemma C8_search_snippet_witness :
  (exists out r,
     snd (searchLocalDocumentation (H := codeUnitCollation) 0 exampleDisk
            {| opt_query := " Guide "; opt_slug := Some "s"; opt_limit := None |}) = Some out /\
     r ∈ out_results out /\ res_docId r = "doc-00002" /\
     res_snippet r = "Title match: API guide") /\
  (exists out r,
     snd (searchLocalDocumentation (H := codeUnitCollation) 0 longDisk
            {| opt_query := "Needle"; opt_slug := Some "s"; opt_limit := None |}) = Some out /\
     r ∈ out_results out /\ res_docId r = "doc-00001" /\
     res_snippet r =
       "..." +:+ repeatChar 109 "a"%char +:+ " needle " +:+ repeatChar 109 "b"%char +:+ "...").
Proof.
  split.
  - pose (options := {| opt_query := " Guide "; opt_slug := Some "s"; opt_limit := None |}).
    destruct (snd (searchLocalDocumentation (H := codeUnitCollation) 0 exampleDisk options))
      as [out|] eqn:Hrun; [|vm_compute in Hrun; discriminate].
    destruct (C8_search_snippet (H := codeUnitCollation) 0 exampleDisk options out Hrun)
      as (_ & _ & _ & ranked & Hresults & Hlen & _ & _ & Hdocs).
    assert (Hslugs : out_searchedSlugs out = ["s"])
      by (vm_compute in Hrun; injection Hrun as <-; reflexivity).
    assert (Htotal : out_totalResults out = 1%nat)
      by (vm_compute in Hrun; injection Hrun as <-; reflexivity).
    destruct (Hdocs "s" "s" exampleSite (exampleDoc "doc-00002" "API guide" "guide")
                "See the api") as [Htitle _].
    + rewrite Hslugs. left.
    + vm_compute. reflexivity.
    + right. left.
    + vm_compute. reflexivity.
    + destruct Htitle as (r & Hin & _ & Hid & Hsn); [reflexivity | reflexivity |].
      exists out, r. split; [exact Hrun|]. split; [|auto].
      rewrite Hresults, take_ge; [exact Hin|]. rewrite <- Hlen, Htotal. vm_compute. lia.
  - pose (options := {| opt_query := "Needle"; opt_slug := Some "s"; opt_limit := None |}).
    destruct (snd (searchLocalDocumentation (H := codeUnitCollation) 0 longDisk options))
      as [out|] eqn:Hrun; [|vm_compute in Hrun; discriminate].
    destruct (C8_search_snippet (H := codeUnitCollation) 0 longDisk options out Hrun)
      as (_ & _ & _ & ranked & Hresults & Hlen & _ & _ & Hdocs).
    assert (Hslugs : out_searchedSlugs out = ["s"])
      by (vm_compute in Hrun; injection Hrun as <-; reflexivity).
    assert (Htotal : out_totalResults out = 1%nat)
      by (vm_compute in Hrun; injection Hrun as <-; reflexivity).
    destruct (Hdocs "s" "s"
                {| si_generatedAt := 0; si_baseUrl := "https://docs.example.com";
                   si_totalDocs := 1;
                   si_docs := [exampleDoc "doc-00001" "Long page" "long"] |}
                (exampleDoc "doc-00001" "Long page" "long") longContent) as [_ Hcontent].
    + rewrite Hslugs. left.
    + vm_compute. reflexivity.
    + left.
    + vm_compute. reflexivity.
    + destruct Hcontent as (i & r & Hfirst & Hin & _ & Hid & Hsn); [vm_compute; reflexivity|].
      assert (Hi : i = 151%nat).
      { destruct Hfirst as [Hat Hbefore].
        destruct (Nat.lt_trichotomy i 151) as [Hlt|[Heq|Hgt]]; [|exact Heq|].
        - exfalso. clear -Hat Hlt.
          do 151 (destruct i as [|i]; [vm_compute in Hat; discriminate|]). lia.
        - specialize (Hbefore 151%nat Hgt). vm_compute in Hbefore. discriminate. }
      subst i.
      exists out, r. split; [exact Hrun|]. split; [|split; [exact Hid|]].
      * rewrite Hresults, take_ge; [exact Hin|]. rewrite <- Hlen, Htotal. vm_compute. lia.
      * rewrite Hsn. vm_compute. reflexivity.
Defined.

(** C8 as stated fails: with [limit] 1 the document "API guide", whose title
    contains the query "api" and whose content does not, is cut from the
    results; and for the query "api " (with a final space), which is in the
    title of "API guide" and not in its content, the search runs on the
    trimmed "api" and the snippet is an excerpt of the content. *)
Lemma C8_counterexample :
  (includes (toLowerCase "API guide") (toLowerCase "api") = true /\
   includes (toLowerCase "How to start.") (toLowerCase "api") = false /\
   exists out,
     snd (searchLocalDocumentation (H := codeUnitCollation) 0
            {| siteIndexFiles := siteIndexFiles exampleDisk;
               contentFiles := {[ ("s", "api.md") := "Reference.";
                                  ("s", "guide.md") := "How to start." ]};
               docIndexFiles := ∅; sitesIndexFile := None |}
            {| opt_query := "api"; opt_slug := Some "s";
               opt_limit := Some (Finite 1) |}) = Some out /\
     map res_docId (out_results out) = ["doc-00001"]) /\
  (includes (toLowerCase "API guide") (toLowerCase "api ") = true /\
   includes (toLowerCase "See the api") (toLowerCase "api ") = false /\
   exists out,
     snd (searchLocalDocumentation (H := codeUnitCollation) 0 exampleDisk
            {| opt_query := "api "; opt_slug := Some "s"; opt_limit := None |})
       = Some out /\
     map (fun r => (res_docId r, res_snippet r)) (out_results out) =
       [("doc-00001", "Title match: API"); ("doc-00002", "See the api")]).
Proof.
  split.
  - split; [reflexivity|]. split; [reflexivity|].
    eexists. split; [vm_compute; reflexivity|]. reflexivity.
  - split; [reflexivity|]. split; [reflexivity|].
    eexists. split; [vm_compute; reflexivity|]. reflexivity.
Qed.

End SearchFacts.


(** ** Discovery (src/lib/docset/preload.ts) *)
Section DiscoveryFacts.
Import JsString JsArray JsNumber DocsetPreload.
Context `{UrlApi} `{DiscoveryParsers} {W : Type} `{Network W}.

Lemma normalizePositiveInt_range (value : option JsNumber) (defaultValue maxValue : Z) :
  (1 <= defaultValue <= maxValue)%Z ->
  (1 <= normalizePositiveInt value defaultValue maxValue <= maxValue)%Z.
Proof.
  intros Hd. unfold normalizePositiveInt, clampFloor.
  destruct value as [[| | |q]|]; lia.
Qed.

Lemma grownFrom_refl base sameHostOnly maxDiscover (l : list string) :
  NoDup l -> (length l <= maxDiscover)%nat ->
  grownFrom base sameHostOnly maxDiscover l l.
Proof.
  intros Hnd Hlen. repeat split; [exact Hnd | exact Hlen |].
  exists []. rewrite app_nil_r. split; [reflexivity | constructor].
Qed.

Lemma grownFrom_trans base sameHostOnly maxDiscover (l1 l2 l3 : list string) :
  grownFrom base sameHostOnly maxDiscover l1 l2 ->
  grownFrom base sameHostOnly maxDiscover l2 l3 ->
  grownFrom base sameHostOnly maxDiscover l1 l3.
Proof.
  intros (_ & _ & a1 & -> & Ha1) (Hnd & Hlen & a2 & -> & Ha2).
  repeat split; [exact Hnd | exact Hlen |].
  exists (a1 ++ a2). rewrite app_assoc. split; [reflexivity|].
  apply Forall_app. split; assumption.
Qed.

Lemma grownFrom_length base sameHostOnly maxDiscover (l1 l2 : list string) :
  grownFrom base sameHostOnly maxDiscover l1 l2 -> (length l1 <= length l2)%nat.
Proof. intros (_ & _ & a & -> & _). rewrite length_app. lia. Qed.

Lemma setAdd_grown base sameHostOnly maxDiscover (url : string) (l : list string) :
  NoDup l -> (length l < maxDiscover)%nat ->
  admissible base sameHostOnly url ->
  grownFrom base sameHostOnly maxDiscover l (setAdd url l).
Proof.
  intros Hnd Hlen Hok. unfold setAdd. destruct (decide (url ∈ l)) as [Hin|Hin].
  - apply grownFrom_refl; [exact Hnd | lia].
  - repeat split.
    + apply NoDup_app. repeat split; [exact Hnd | | apply NoDup_singleton].
      intros x Hx Hx'. apply list_elem_of_singleton in Hx'. subst. contradiction.
    + rewrite length_app. simpl. lia.
    + exists [url]. split; [reflexivity|]. constructor; [exact Hok | constructor].
Qed.

Lemma admitFromIndex_grown (urls : list string) base sameHostOnly maxDiscover
    (discovered : list string) :
  NoDup discovered -> (length discovered < maxDiscover)%nat ->
  grownFrom base sameHostOnly maxDiscover discovered
    (admitFromIndex urls base sameHostOnly maxDiscover discovered).
Proof.
  revert discovered. induction urls as [|url rest IH]; intros discovered Hnd Hlen; simpl.
  - apply grownFrom_refl; [exact Hnd | lia].
  - destruct (isAllowedUrl url base sameHostOnly) eqn:Hallowed; simpl; [|apply IH; assumption].
    destruct (isLikelyDocumentationPage url) eqn:Hlikely; simpl; [|apply IH; assumption].
    assert (Hstep : grownFrom base sameHostOnly maxDiscover discovered (setAdd url discovered))
      by (apply setAdd_grown; [assumption | assumption | split; assumption]).
    destruct (maxDiscover <=? length (setAdd url discovered))%nat eqn:Hfull; [exact Hstep|].
    apply Nat.leb_gt in Hfull.
    eapply grownFrom_trans; [exact Hstep|].
    apply IH; [apply Hstep | exact Hfull].
Qed.

Lemma tryDiscoverFromSitemap_grown (w : W) sitemapUrl base discovered g maxDiscover sameHostOnly :
  NoDup discovered -> (length discovered < maxDiscover)%nat ->
  grownFrom base sameHostOnly maxDiscover discovered
    (tryDiscoverFromSitemap w sitemapUrl base discovered g maxDiscover sameHostOnly).1.2.
Proof.
  intros Hnd Hlen. unfold tryDiscoverFromSitemap.
  destruct (fetchText w sitemapUrl _) as [w' [message|xml]]; simpl.
  - apply grownFrom_refl; [exact Hnd | lia].
  - apply admitFromIndex_grown; assumption.
Qed.

Lemma tryDiscoverFromSearchIndex_grown (w : W) indexUrl indexBase base discovered g
    maxDiscover sameHostOnly :
  NoDup discovered -> (length discovered < maxDiscover)%nat ->
  grownFrom base sameHostOnly maxDiscover discovered
    (tryDiscoverFromSearchIndex w indexUrl indexBase base discovered g
       maxDiscover sameHostOnly).1.2.
Proof.
  intros Hnd Hlen. unfold tryDiscoverFromSearchIndex.
  destruct (fetchText w indexUrl _) as [w' [message|raw]]; simpl.
  - apply grownFrom_refl; [exact Hnd | lia].
  - apply admitFromIndex_grown; assumption.
Qed.

Lemma sitemapLoop_grown (paths : list string) (w : W) indexBase base discovered g
    maxDiscover sameHostOnly w' discovered' g' :
  NoDup discovered -> (length discovered <= maxDiscover)%nat ->
  sitemapLoop paths w indexBase base discovered g maxDiscover sameHostOnly
    = Some (w', discovered', g') ->
  grownFrom base sameHostOnly maxDiscover discovered discovered'.
Proof.
  revert w discovered g. induction paths as [|path rest IH]; intros w discovered g Hnd Hlen Hrun;
    simpl in Hrun.
  - injection Hrun as <- <- <-. apply grownFrom_refl; assumption.
  - destruct (maxDiscover <=? length discovered)%nat eqn:Hfull.
    + injection Hrun as <- <- <-. apply grownFrom_refl; assumption.
    + apply Nat.leb_gt in Hfull.
      destruct (newURLFrom path indexBase) as [sitemapUrl|]; [|discriminate]. simpl in Hrun.
      pose proof (tryDiscoverFromSitemap_grown w (urlToString sitemapUrl) base discovered g
                    maxDiscover sameHostOnly Hnd Hfull) as Hstep.
      destruct (tryDiscoverFromSitemap w (urlToString sitemapUrl) base discovered g
                  maxDiscover sameHostOnly) as [[w1 d1] g1]. simpl in Hstep.
      eapply grownFrom_trans; [exact Hstep|].
      eapply IH; [apply Hstep | apply Hstep | exact Hrun].
Qed.

Lemma searchIndexLoop_grown (paths : list string) (w : W) indexBase base discovered g
    maxDiscover sameHostOnly w' discovered' g' :
  NoDup discovered -> (length discovered <= maxDiscover)%nat ->
  searchIndexLoop paths w indexBase base discovered g maxDiscover sameHostOnly
    = Some (w', discovered', g') ->
  grownFrom base sameHostOnly maxDiscover discovered discovered'.
Proof.
  revert w discovered g. induction paths as [|path rest IH]; intros w discovered g Hnd Hlen Hrun;
    simpl in Hrun.
  - injection Hrun as <- <- <-. apply grownFrom_refl; assumption.
  - destruct (maxDiscover <=? length discovered)%nat eqn:Hfull.
    + injection Hrun as <- <- <-. apply grownFrom_refl; assumption.
    + apply Nat.leb_gt in Hfull.
      destruct (newURLFrom path indexBase) as [indexUrl|]; [|discriminate]. simpl in Hrun.
      pose proof (tryDiscoverFromSearchIndex_grown w (urlToString indexUrl)
                    (urlToString indexBase) base discovered g
                    maxDiscover sameHostOnly Hnd Hfull) as Hstep.
      destruct (tryDiscoverFromSearchIndex w (urlToString indexUrl) (urlToString indexBase)
                  base discovered g maxDiscover sameHostOnly) as [[w1 d1] g1]. simpl in Hstep.
      eapply grownFrom_trans; [exact Hstep|].
      eapply IH; [apply Hstep | apply Hstep | exact Hrun].
Qed.

Lemma indexBasesLoop_grown (indexBases : list URL) (w : W) base discovered g
    maxDiscover sameHostOnly w' discovered' g' :
  NoDup discovered -> (length discovered <= maxDiscover)%nat ->
  indexBasesLoop indexBases w base discovered g maxDiscover sameHostOnly
    = Some (w', discovered', g') ->
  grownFrom base sameHostOnly maxDiscover discovered discovered'.
Proof.
  revert w discovered g.
  induction indexBases as [|indexBase rest IH]; intros w discovered g Hnd Hlen Hrun;
    cbn -[SITEMAP_PATHS SEARCH_INDEX_PATHS] in Hrun.
  - injection Hrun as <- <- <-. apply grownFrom_refl; assumption.
  - destruct (sitemapLoop SITEMAP_PATHS w indexBase base discovered g maxDiscover sameHostOnly)
      as [[[w1 d1] g1]|] eqn:Hsitemaps; [|discriminate].
    cbn -[SITEMAP_PATHS SEARCH_INDEX_PATHS] in Hrun.
    destruct (searchIndexLoop SEARCH_INDEX_PATHS w1 indexBase base d1 g1 maxDiscover sameHostOnly)
      as [[[w2 d2] g2]|] eqn:Hindexes; [|discriminate].
    cbn -[SITEMAP_PATHS SEARCH_INDEX_PATHS] in Hrun.
    pose proof (sitemapLoop_grown _ _ _ _ _ _ _ _ _ _ _ Hnd Hlen Hsitemaps) as Hg1.
    pose proof (searchIndexLoop_grown _ _ _ _ _ _ _ _ _ _ _
                  (proj1 Hg1) (proj1 (proj2 Hg1)) Hindexes) as Hg2.
    eapply grownFrom_trans; [exact Hg1|]. eapply grownFrom_trans; [exact Hg2|].
    eapply IH; [apply Hg2 | apply Hg2 | exact Hrun].
Qed.

Lemma admitLinks_grown (links : list string) base sameHostOnly maxDiscover maxDepth depth
    (discovered : list string) (queue : list (string * nat)) :
  NoDup discovered -> (length discovered < maxDiscover)%nat ->
  let after := admitLinks links base sameHostOnly maxDiscover maxDepth depth discovered queue in
  grownFrom base sameHostOnly maxDiscover discovered after.1 /\
  (length after.2 + length discovered <= length queue + length after.1)%nat.
Proof.
  revert discovered queue.
  induction links as [|link rest IH]; intros discovered queue Hnd Hlen; simpl.
  - split; [apply grownFrom_refl; [exact Hnd | lia] | lia].
  - destruct (isAllowedUrl link base sameHostOnly) eqn:Hallowed; simpl; [|apply IH; assumption].
    destruct (isLikelyDocumentationPage link) eqn:Hlikely; simpl; [|apply IH; assumption].
    destruct (decide (link ∈ discovered)) as [Hin|Hin]; [apply IH; assumption|].
    assert (Hstep : grownFrom base sameHostOnly maxDiscover discovered (discovered ++ [link])).
    { repeat split.
      - apply NoDup_app. repeat split; [exact Hnd | | apply NoDup_singleton].
        intros x Hx Hx'. apply list_elem_of_singleton in Hx'. subst. contradiction.
      - rewrite length_app. simpl. lia.
      - exists [link]. split; [reflexivity|].
        constructor; [split; assumption | constructor]. }
    set (queue' := if (depth <? maxDepth)%nat then queue ++ [(link, S depth)] else queue).
    assert (Hq : (length queue' <= S (length queue))%nat).
    { subst queue'. destruct (depth <? maxDepth)%nat; [rewrite length_app; simpl|]; lia. }
    destruct (maxDiscover <=? length (discovered ++ [link]))%nat eqn:Hfull; simpl.
    + split; [exact Hstep|]. rewrite length_app. simpl. lia.
    + apply Nat.leb_gt in Hfull.
      destruct (IH (discovered ++ [link]) queue' (proj1 Hstep) Hfull) as [Hg Hl].
      split; [eapply grownFrom_trans; eassumption|].
      rewrite length_app in Hl. simpl in Hl. lia.
Qed.

(** The crawl loop ends within the steps it is given, and keeps the
    discovered set within the limit and the rules. *)
Lemma crawlLoop_returns (steps : nat) (w : W) base sameHostOnly maxDiscover maxDepth
    (discovered : list string) (seenCrawl : gset string) (queue : list (string * nat))
    (g : Diagnostics) :
  NoDup discovered -> (length discovered <= maxDiscover)%nat ->
  (maxDiscover + length queue <= steps + length discovered)%nat ->
  exists w' discovered' g',
    crawlLoop steps w base sameHostOnly maxDiscover maxDepth discovered seenCrawl queue g
      = Some (w', discovered', g') /\
    grownFrom base sameHostOnly maxDiscover discovered discovered'.
Proof.
  revert w discovered seenCrawl queue g.
  induction steps as [|steps IH]; intros w discovered seenCrawl queue g Hnd Hlen Hsteps.
  - destruct queue as [|[url depth] queue]; simpl.
    + do 3 eexists. split; [reflexivity | apply grownFrom_refl; assumption].
    + simpl in Hsteps.
      assert (Hfull : (length discovered <? maxDiscover)%nat = false)
        by (apply Nat.ltb_ge; lia).
      rewrite Hfull. simpl.
      do 3 eexists. split; [reflexivity | apply grownFrom_refl; assumption].
  - destruct queue as [|[url depth] queue]; simpl.
    + do 3 eexists. split; [reflexivity | apply grownFrom_refl; assumption].
    + simpl in Hsteps.
      destruct (length discovered <? maxDiscover)%nat eqn:Hroom; simpl.
      2: { do 3 eexists. split; [reflexivity | apply grownFrom_refl; assumption]. }
      apply Nat.ltb_lt in Hroom.
      destruct (maxDepth <? depth)%nat; [apply IH; [assumption | assumption | lia]|].
      destruct (decide (url ∈ seenCrawl)); [apply IH; [assumption | assumption | lia]|].
      destruct (fetchText w url "text/html") as [w1 [message|html]].
      * apply IH; [assumption | assumption | lia].
      * pose proof (admitLinks_grown (parseLinksFromHtml html url) base sameHostOnly
                      maxDiscover maxDepth depth discovered queue Hnd Hroom) as [Hg Hq].
        destruct (admitLinks (parseLinksFromHtml html url) base sameHostOnly maxDiscover
                    maxDepth depth discovered queue) as [d1 q1].
        simpl in Hg, Hq.
        destruct (IH w1 d1 ({[url]} ∪ seenCrawl) q1
                    (pushFetched url (pushAttempted url g)))
          as (w' & d' & g' & Hrun & Hg'); [apply Hg | apply Hg | lia |].
        exists w', d', g'. split; [exact Hrun|].
        eapply grownFrom_trans; eassumption.
Qed.

Lemma admissible_extension base sameHostOnly (url : string) :
  admissible base sameHostOnly url -> hasNonDocExtension url = false.
Proof.
  intros [Hlikely _]. unfold isLikelyDocumentationPage in Hlikely.
  unfold hasNonDocExtension. destruct (newURL url); [|reflexivity].
  apply negb_true_iff in Hlikely. exact Hlikely.
Qed.

(** C1, as amended. For every base URL and every options value the call
    either throws (the base URL, or a URL built from it, cannot be parsed) or
    returns; it never loops for ever. The URLs returned are distinct, at
    most [maxDiscover] of them (clamped to 1..2000, 300 by default), and the
    first one is the normalized base URL, which is admitted without any
    filter; every other URL returned has passed the filters: it is http(s),
    on the host of the base when [sameHostOnly], and its path has no
    extension of the list of the files that are not documents. *)
Theorem C1_discover_bounded_filtered (w : W) (baseUrl : string) (options : DiscoverOptions) :
  let limit := Z.to_nat (normalizePositiveInt (maxDiscover options) 300 2000) in
  (1 <= limit <= 2000)%nat /\
  match (discoverDocumentationUrls w baseUrl options).2 with
  | OutOfSteps => False
  | Throws => True
  | Returns result =>
      exists normalizedBase base,
        normalizeUrl baseUrl = Some normalizedBase /\
        newURL normalizedBase = Some base /\
        NoDup (urls result) /\
        (length (urls result) <= limit)%nat /\
        head (urls result) = Some normalizedBase /\
        forall url, url ∈ urls result -> url <> normalizedBase ->
          isAllowedUrl url base (notFalse (sameHostOnly options)) = true /\
          isLikelyDocumentationPage url = true /\
          hasNonDocExtension url = false
  end.
Proof.
  intros limit.
  assert (Hrange : (1 <= limit <= 2000)%nat).
  { subst limit.
    pose proof (normalizePositiveInt_range (maxDiscover options) 300 2000 ltac:(lia)). lia. }
  split; [exact Hrange|].
  unfold discoverDocumentationUrls. fold limit.
  destruct (normalizeUrl baseUrl) as [normalizedBase|] eqn:Hnorm; [|exact I].
  destruct (newURL normalizedBase) as [base|] eqn:Hbase; [|exact I].
  set (sameHost := notFalse (sameHostOnly options)).
  set (depthLimit := Z.to_nat (normalizePositiveInt (maxDepth options) 2 5)).
  set (g0 := {| attempted := []; fetched := []; errors := [] |}).
  assert (Hnd0 : NoDup [normalizedBase]) by apply NoDup_singleton.
  assert (Hlen0 : (length [normalizedBase] <= limit)%nat) by (simpl; lia).
  assert (Hfinish : forall discovered,
            grownFrom base sameHost limit [normalizedBase] discovered ->
            NoDup discovered /\ (length discovered <= limit)%nat /\
            head discovered = Some normalizedBase /\
            forall url, url ∈ discovered -> url <> normalizedBase ->
              isAllowedUrl url base sameHost = true /\
              isLikelyDocumentationPage url = true /\
              hasNonDocExtension url = false).
  { intros discovered (Hnd & Hlen & added & -> & Hadded).
    split; [exact Hnd|]. split; [exact Hlen|]. split; [reflexivity|].
    intros url Hin Hne. apply elem_of_cons in Hin as [->|Hin]; [contradiction|].
    rewrite Forall_forall in Hadded. specialize (Hadded _ Hin).
    split; [apply Hadded|]. split; [apply Hadded|].
    eapply admissible_extension; exact Hadded. }
  set (afterIndexes :=
         if notFalse (includeIndexes options)
         then indexBases ← buildIndexBaseCandidates base;
              indexBasesLoop indexBases w base [normalizedBase] g0 limit sameHost
         else Some (w, [normalizedBase], g0)).
  assert (Hindexes : forall w1 d1 g1, afterIndexes = Some (w1, d1, g1) ->
            grownFrom base sameHost limit [normalizedBase] d1).
  { intros w1 d1 g1. subst afterIndexes.
    destruct (notFalse (includeIndexes options)).
    - destruct (buildIndexBaseCandidates base) as [indexBases|]; [|discriminate]. simpl.
      apply indexBasesLoop_grown; assumption.
    - intros [= <- <- <-]. apply grownFrom_refl; assumption. }
  destruct afterIndexes as [[[w1 d1] g1]|]; [|exact I].
  specialize (Hindexes w1 d1 g1 eq_refl).
  destruct (notFalse (includeLinks options)).
  - destruct (crawlLoop_returns (S limit) w1 base sameHost limit depthLimit d1 ∅
                [(normalizedBase, 0%nat)] g1)
      as (w2 & d2 & g2 & Hrun & Hg); [apply Hindexes | apply Hindexes | simpl; lia |].
    rewrite Hrun. simpl.
    exists normalizedBase, base. split; [reflexivity|]. split; [exact Hbase|].
    apply Hfinish. eapply grownFrom_trans; eassumption.
  - simpl. exists normalizedBase, base. split; [reflexivity|]. split; [exact Hbase|].
    apply Hfinish. exact Hindexes.
Qed.

End DiscoveryFacts.

(** C1 as stated fails on the seeded base URL: with the base URL
    [https://docs.example.com/logo.png] (and no page reachable) the set
    returned holds that URL, whose path ends with [.png]. *)
Lemma C1_counterexample :
  exists result,
    (DocsetPreload.discoverDocumentationUrls (H := SimpleUrl.api) (H0 := noParsers)
       (H1 := offlineNetwork) tt "https://docs.example.com/logo.png"
       {| DocsetPreload.includeIndexes := None; DocsetPreload.includeLinks := None;
          DocsetPreload.maxDiscover := None; DocsetPreload.maxDepth := None;
          DocsetPreload.sameHostOnly := None |}).2 = DocsetPreload.Returns result /\
    DocsetPreload.urls result = ["https://docs.example.com/logo.png"] /\
    hasNonDocExtension (H := SimpleUrl.api) "https://docs.example.com/logo.png" = true /\
    JsString.endsWith "/logo.png" ".png" = true.
Proof. eexists. split; [vm_compute; reflexivity|]. vm_compute. auto. Qed.

(** The theorem at a base URL that is a page, with the default options. *)
Lemma C1_discover_witness :
  let options :=
    {| DocsetPreload.includeIndexes := None; DocsetPreload.includeLinks := None;
       DocsetPreload.maxDiscover := Some (JsNumber.Finite (5 # 2));
       DocsetPreload.maxDepth := None; DocsetPreload.sameHostOnly := None |} in
  exists result,
    (DocsetPreload.discoverDocumentationUrls (H := SimpleUrl.api) (H0 := noParsers)
       (H1 := offlineNetwork) tt "https://docs.example.com/guide/#intro" options).2
      = DocsetPreload.Returns result /\
    (length (DocsetPreload.urls result) <= 2)%nat /\
    head (DocsetPreload.urls result) = Some "https://docs.example.com/guide/".
Proof.
  intros options.
  pose proof (C1_discover_bounded_filtered (H := SimpleUrl.api) (H0 := noParsers)
                (H1 := offlineNetwork) tt "https://docs.example.com/guide/#intro" options)
    as [_ Hspec].
  destruct (DocsetPreload.discoverDocumentationUrls tt _ options).2 as [| result |] eqn:Hrun;
    [vm_compute in Hrun; discriminate | | contradiction].
  exists result. split; [reflexivity|].
  destruct Hspec as (normalizedBase & base & Hnorm & _ & _ & Hlen & Hhead & _).
  vm_compute in Hnorm. injection Hnorm as <-.
  split; [exact Hlen | exact Hhead].
Defined.


(** ** Sorting with a total order *)
Section SortFacts.
Import JsArray.
Context {A : Type} (cmp : A -> A -> Z).

Hypothesis cmp_total : forall a b, (sortsBefore cmp) a b \/ (sortsBefore cmp) b a.
Hypothesis cmp_trans : forall a b c, (sortsBefore cmp) a b -> (sortsBefore cmp) b c -> (sortsBefore cmp) a c.

Lemma insertBy_sorted (x : A) (l : list A) :
  StronglySorted (sortsBefore cmp) l -> StronglySorted (sortsBefore cmp) (insertBy cmp x l).
Proof.
  induction 1 as [|y l Hl IH Hy]; simpl.
  - constructor; constructor.
  - destruct (cmp x y <=? 0)%Z eqn:Hxy.
    + apply Z.leb_le in Hxy. constructor; [constructor; assumption|].
      constructor; [exact Hxy|].
      eapply Forall_impl; [exact Hy|]. intros z Hz. eapply cmp_trans; eassumption.
    + apply Z.leb_gt in Hxy. constructor; [exact IH|].
      rewrite (insertBy_Permutation cmp x l). constructor; [|exact Hy].
      destruct (cmp_total y x) as [Hle|Hle]; [exact Hle|].
      unfold sortsBefore in Hle. lia.
Qed.

Lemma sortBy_sorted (l : list A) : StronglySorted (sortsBefore cmp) (sortBy cmp l).
Proof.
  induction l as [|x l IH]; simpl; [constructor | apply insertBy_sorted, IH].
Qed.

(** Two arrangements of the same elements sort to the same array when no
    two distinct elements compare as equal. *)
Lemma sortBy_Permutation_eq (l l' : list A) :
  (forall a b, a ∈ l -> b ∈ l -> (sortsBefore cmp) a b -> (sortsBefore cmp) b a -> a = b) ->
  l ≡ₚ l' -> sortBy cmp l = sortBy cmp l'.
Proof.
  intros Hanti Hperm.
  apply (StronglySorted_unique_strong (sortsBefore cmp)).
  - intros a b Ha Hb. apply elem_of_sortBy in Ha, Hb.
    apply Hanti; [exact Ha | rewrite Hperm; exact Hb].
  - apply sortBy_sorted.
  - apply sortBy_sorted.
  - rewrite !sortBy_Permutation. exact Hperm.
Qed.

End SortFacts.

(** The order of the code units is a consistent comparison. *)
Lemma codeUnitCollation_order : CollationOrder (H := codeUnitCollation).
Proof.
  assert (Hle : forall a b, (codeUnitCompare a b <= 0)%Z <-> String.compare a b <> Gt).
  { intros a b. unfold codeUnitCompare. destruct (String.compare a b); split; intros; try lia;
      congruence. }
  split; unfold localeCompare, codeUnitCollation; intros a b.
  - rewrite !Hle. rewrite (String.compare_antisym b a).
    destruct (String.compare a b); simpl; [left | left | right]; congruence.
  - intros c. rewrite !Hle. intros Hab Hbc.
    destruct (String.compare a b) eqn:Eab; [| |congruence].
    + apply String.compare_eq_iff in Eab. subst. exact Hbc.
    + destruct (String.compare b c) eqn:Ebc; [| |congruence].
      * apply String.compare_eq_iff in Ebc. subst. rewrite Eab. congruence.
      * apply String_as_OT.cmp_lt in Eab, Ebc.
        pose proof (String_as_OT.lt_trans _ _ _ Eab Ebc) as Hac.
        apply String_as_OT.cmp_lt in Hac. unfold String_as_OT.cmp in Hac.
        rewrite Hac. congruence.
  - rewrite !Hle. rewrite (String.compare_antisym b a). unfold codeUnitCompare.
    destruct (String.compare a b) eqn:Eab; simpl; intros H1 H2; congruence.
Qed.

(** ** The bundle (src/lib/preload.ts) *)
Section BundleFacts.
Import JsString JsArray JsNumber PreloadTypes Preload.
Context `{Collation} `{MarkdownText}.

Lemma summarize_fields (item : PreloadItem) (index : nat) used urlToId summary used' urlToId' :
  summarize item index used urlToId = Some (summary, used', urlToId') ->
  doc_id summary = docId index /\ doc_url summary = item_url item /\
  doc_path summary = item_path item.
Proof.
  unfold summarize. intros Hrun.
  destruct (extractMarkdownTitle (item_content item)) as [|c title];
    [destruct (humanizePath (item_path item) (item_url item)) as [title|] eqn:Hh |];
    simpl in Hrun; try discriminate.
  - destruct title as [|c title]; simpl in Hrun;
      destruct (uniqueFileBase _ used) as [fileBase used1];
      injection Hrun as <- _ _; auto.
  - destruct (uniqueFileBase _ used) as [fileBase used1].
    injection Hrun as <- _ _. auto.
Qed.

(** The documents of the site index follow the sorted items, and the
    document at position [i] has the identifier of rank [i + 1]. *)
Lemma summarizeAll_fields (items : list PreloadItem) (index : nat) used urlToId
    summaries urlToId' :
  summarizeAll items index used urlToId = Some (summaries, urlToId') ->
  map doc_id summaries = map docId (seq index (length items)) /\
  map doc_url summaries = map item_url items /\
  map doc_path summaries = map item_path items.
Proof.
  revert index used urlToId summaries urlToId'.
  induction items as [|item rest IH]; intros index used urlToId summaries urlToId' Hrun;
    simpl in Hrun.
  - injection Hrun as <- _. auto.
  - destruct (summarize item index used urlToId) as [[[summary used1] urlToId1]|] eqn:Hone;
      [|discriminate].
    simpl in Hrun.
    destruct (summarizeAll rest (S index) used1 urlToId1) as [[more urlToId2]|] eqn:Hmore;
      [|discriminate].
    simpl in Hrun. injection Hrun as <- _.
    destruct (summarize_fields _ _ _ _ _ _ _ Hone) as (Hid & Hurl & Hpath).
    destruct (IH _ _ _ _ _ Hmore) as (Hids & Hurls & Hpaths).
    simpl. rewrite Hid, Hurl, Hpath, Hids, Hurls, Hpaths. auto.
Qed.

(** C4, as amended. For items no two of which have URLs that compare as
    equal under [localeCompare], [buildPreloadBundle] gives the same bundle,
    hence the same identifier to each item, for every order of the input
    array; the items are taken in the order of their URLs and the one of
    rank [i] receives the zero-padded identifier [doc-] followed by [i] on
    five digits ([doc-00001], [doc-00002], ...). *)
Theorem C4_ids_independent_of_input_order `{!CollationOrder}
    (now : Z) (baseUrl : string) (items items' : list PreloadItem) :
  items ≡ₚ items' ->
  noEqualUrls items ->
  buildPreloadBundle now baseUrl items = buildPreloadBundle now baseUrl items' /\
  forall bundle, buildPreloadBundle now baseUrl items = Some bundle ->
    docs bundle = sortBy byUrl items /\
    StronglySorted (sortsBefore byUrl) (docs bundle) /\
    map doc_id (si_docs (siteIndex bundle)) = map docId (seq 0 (length items)) /\
    map doc_url (si_docs (siteIndex bundle)) = map item_url (docs bundle) /\
    map doc_path (si_docs (siteIndex bundle)) = map item_path (docs bundle).
Proof.
  intros Hperm Hdistinct.
  assert (Hsame : sortBy byUrl items = sortBy byUrl items').
  { apply sortBy_Permutation_eq; [| | |exact Hperm].
    - intros a b. apply localeCompare_total.
    - intros a b c. apply localeCompare_trans.
    - intros a b Ha Hb Hab Hba.
      apply list_elem_of_lookup in Ha as [i Hi]. apply list_elem_of_lookup in Hb as [j Hj].
      destruct (decide (i = j)) as [->|Hij]; [congruence|].
      exfalso. apply (Hdistinct i j a b Hi Hj Hij).
      apply localeCompare_equal; assumption. }
  split.
  - unfold buildPreloadBundle. rewrite Hsame. reflexivity.
  - intros bundle Hrun. unfold buildPreloadBundle in Hrun.
    destruct (summarizeAll (sortBy byUrl items) 0 ∅ ∅) as [[summaries urlToId]|] eqn:Hall;
      [|discriminate].
    simpl in Hrun. injection Hrun as <-. simpl.
    destruct (summarizeAll_fields _ _ _ _ _ _ Hall) as (Hids & Hurls & Hpaths).
    rewrite length_sortBy in Hids.
    split; [reflexivity|]. split; [|auto].
    apply sortBy_sorted.
    + intros a b. apply localeCompare_total.
    + intros a b c. apply localeCompare_trans.
Qed.

End BundleFacts.

(** C4 as stated fails when two items have the same URL: the stable sort
    keeps them in their input order, so exchanging them exchanges their
    identifiers. *)
Lemma C4_counterexample :
  [pageByPath; pageByUrl] ≡ₚ [pageByUrl; pageByPath] /\
  assignedIds (Preload.buildPreloadBundle (H := codeUnitCollation)
                 (H0 := ExampleText.emptyDocuments) 0 "https://docs.example.com"
                 [pageByPath; pageByUrl]) =
    Some [("/a", "doc-00001"); ("https://docs.example.com/a", "doc-00002")] /\
  assignedIds (Preload.buildPreloadBundle (H := codeUnitCollation)
                 (H0 := ExampleText.emptyDocuments) 0 "https://docs.example.com"
                 [pageByUrl; pageByPath]) =
    Some [("https://docs.example.com/a", "doc-00001"); ("/a", "doc-00002")].
Proof.
  split; [apply Permutation_swap|]. split; vm_compute; reflexivity.
Qed.

Lemma C4_ids_witness :
  noEqualUrls (H := codeUnitCollation) [pageB; pageByPath] /\
  Preload.buildPreloadBundle (H := codeUnitCollation)
    (H0 := ExampleText.emptyDocuments) 0 "https://docs.example.com" [pageB; pageByPath] =
  Preload.buildPreloadBundle (H := codeUnitCollation)
    (H0 := ExampleText.emptyDocuments) 0 "https://docs.example.com" [pageByPath; pageB] /\
  assignedIds (Preload.buildPreloadBundle (H := codeUnitCollation)
                 (H0 := ExampleText.emptyDocuments) 0 "https://docs.example.com"
                 [pageB; pageByPath]) = Some [("/a", "doc-00001"); ("/b", "doc-00002")].
Proof.
  assert (Hdistinct : noEqualUrls (H := codeUnitCollation) [pageB; pageByPath]).
  { intros i j a b Hi Hj Hij.
    destruct i as [|[|i]], j as [|[|j]]; simpl in Hi, Hj; try discriminate; try congruence;
      injection Hi as <-; injection Hj as <-; vm_compute; discriminate. }
  split; [exact Hdistinct|].
  destruct (C4_ids_independent_of_input_order (H := codeUnitCollation)
              (H0 := ExampleText.emptyDocuments) (H1 := codeUnitCollation_order)
              0 "https://docs.example.com" [pageB; pageByPath] [pageByPath; pageB])
    as [Hsame _].
  - apply Permutation_swap.
  - exact Hdistinct.
  - split; [exact Hsame | vm_compute; reflexivity].
Defined.


(** ** The local store (src/lib/preload-local.ts) *)
Section StoreFacts.
Import JsString JsArray JsNumber PreloadTypes PreloadLocal.
Context `{Collation} `{UrlApi} `{LocalText}.

(** *** What each step leaves alone *)





Lemma String_eqb_True (a b : string) : Is_true (String.eqb a b) <-> a = b.
Proof. rewrite Is_true_true. apply String.eqb_eq. Qed.





(** *** Suggestions *)











End StoreFacts.






(** ** The job table (src/lib/preload-job-manager.ts) *)
Section JobTableFacts.
Import JsString JsArray JsNumber PreloadTypes PreloadJobManager.

Lemma statusEqb_eq (a b : PreloadJobStatus) : statusEqb a b = true <-> a = b.
Proof. destruct a, b; simpl; split; intros; congruence. Qed.

Lemma statusEqb_True (a b : PreloadJobStatus) : Is_true (statusEqb a b) <-> a = b.
Proof. rewrite Is_true_true. apply statusEqb_eq. Qed.

Lemma elem_of_deleteJob (jobs : list PreloadJob) (id : string) (job : PreloadJob) :
  job ∈ deleteJob jobs id <-> job_id job <> id /\ job ∈ jobs.
Proof.
  unfold deleteJob. rewrite list_elem_of_filter, negb_True, String_eqb_True. reflexivity.
Qed.

(** Two jobs of a table with the same identifier are the same job. *)
Lemma same_id_same_job (all : list PreloadJob) (a b : PreloadJob) :
  NoDup (map job_id all) -> a ∈ all -> b ∈ all -> job_id a = job_id b -> a = b.
Proof.
  intros Hnodup Ha Hb Hid.
  apply list_elem_of_lookup in Ha as [i Hi]. apply list_elem_of_lookup in Hb as [j Hj].
  assert (i = j).
  { eapply NoDup_lookup; [exact Hnodup | |].
    - rewrite list_lookup_fmap, Hi. reflexivity.
    - rewrite list_lookup_fmap, Hj. simpl. rewrite Hid. reflexivity. }
  subst j. congruence.
Qed.

Lemma StronglySorted_weaken {A : Type} (R S : A -> A -> Prop) (l : list A) :
  (forall a b, R a b -> S a b) -> StronglySorted R l -> StronglySorted S l.
Proof.
  intros Himpl. induction 1 as [|x l Hl IH Hx]; constructor; [exact IH|].
  eapply Forall_impl; [exact Hx|]. intros y. apply Himpl.
Qed.

(** The second loop of the pruning: it only removes jobs that are not
    running, the oldest first, and stops when the table is small enough. *)
Lemma evictOldest_spec (all sorted jobs : list PreloadJob) :
  NoDup (map job_id all) ->
  (forall j, j ∈ sorted -> j ∈ all) ->
  (forall j, j ∈ jobs -> j ∈ all) ->
  StronglySorted updatedBefore sorted ->
  let jobs' := evictOldest sorted jobs in
  (forall j, j ∈ jobs' -> j ∈ jobs) /\
  (forall j, j ∈ jobs -> job_status j = running -> j ∈ jobs') /\
  (forall x, x ∈ jobs -> x ∉ jobs' ->
     job_status x <> running /\ (maxJobs < length jobs)%nat /\
     forall r, r ∈ jobs' -> r ∈ sorted -> job_status r <> running -> updatedBefore x r) /\
  ((length jobs' <= maxJobs)%nat \/
   forall r, r ∈ jobs' -> r ∈ sorted -> job_status r = running).
Proof.
  intros Hnodup Hsorted Hjobs Hord. revert jobs Hjobs.
  induction Hord as [|job rest Hrest IH Hfirst]; intros jobs Hjobs; simpl.
  - split; [auto|]. split; [auto|]. split; [intros x Hx Hx'; contradiction|].
    right. intros r _ Hr. inversion Hr.
  - destruct (length jobs <=? maxJobs)%nat eqn:Hsmall.
    { apply Nat.leb_le in Hsmall. split; [auto|]. split; [auto|].
      split; [intros x Hx Hx'; contradiction|].
      left. exact Hsmall. }
    apply Nat.leb_gt in Hsmall.
    assert (Hrest_all : forall j, j ∈ rest -> j ∈ all)
      by (intros j Hj; apply Hsorted; right; exact Hj).
    destruct (statusEqb (job_status job) running) eqn:Hstatus.
    + apply statusEqb_eq in Hstatus.
      destruct (IH Hrest_all jobs Hjobs) as (Hsub & Hkeep & Hevicted & Hend).
      split; [exact Hsub|]. split; [exact Hkeep|]. split.
      * intros x Hx Hx'. destruct (Hevicted x Hx Hx') as (Hnr & Hlen & Hold).
        split; [exact Hnr|]. split; [exact Hlen|].
        intros r Hr Hr' Hrun. apply elem_of_cons in Hr' as [->|Hr']; [contradiction|].
        apply Hold; assumption.
      * destruct Hend as [Hend|Hend]; [left; exact Hend|].
        right. intros r Hr Hr'. apply elem_of_cons in Hr' as [->|Hr']; [exact Hstatus|].
        apply Hend; assumption.
    + assert (Hnr : job_status job <> running).
      { intros E. apply statusEqb_eq in E. congruence. }
      assert (Hdel : forall j, j ∈ deleteJob jobs (job_id job) -> j ∈ all).
      { intros j Hj. apply elem_of_deleteJob in Hj as [_ Hj]. apply Hjobs, Hj. }
      destruct (IH Hrest_all (deleteJob jobs (job_id job)) Hdel)
        as (Hsub & Hkeep & Hevicted & Hend).
      assert (Hgone : forall r, r ∈ evictOldest rest (deleteJob jobs (job_id job)) -> r <> job).
      { intros r Hr ->. apply Hsub, elem_of_deleteJob in Hr as [Hr _]. contradiction. }
      split; [intros j Hj; apply Hsub, elem_of_deleteJob in Hj as [_ Hj]; exact Hj|].
      split.
      { intros j Hj Hrun. apply Hkeep; [|exact Hrun].
        apply elem_of_deleteJob. split; [|exact Hj].
        intros Hid. apply Hnr. rewrite <- Hrun. f_equal. symmetry.
        apply (same_id_same_job all); [exact Hnodup | apply Hjobs, Hj | | exact Hid].
        apply Hsorted. left. }
      split.
      * intros x Hx Hx'.
        destruct (decide (job_id x = job_id job)) as [Hid|Hid].
        -- assert (x = job) as ->.
           { apply (same_id_same_job all); [exact Hnodup | apply Hjobs, Hx | | exact Hid].
             apply Hsorted. left. }
           split; [exact Hnr|]. split; [exact Hsmall|].
           intros r Hr Hr' _. apply elem_of_cons in Hr' as [->|Hr'];
             [exfalso; eapply Hgone; [exact Hr | reflexivity]|].
           rewrite Forall_forall in Hfirst. apply Hfirst, Hr'.
        -- assert (Hx1 : x ∈ deleteJob jobs (job_id job))
             by (apply elem_of_deleteJob; split; assumption).
           destruct (Hevicted x Hx1 Hx') as (Hxnr & _ & Hold).
           split; [exact Hxnr|]. split; [exact Hsmall|].
           intros r Hr Hr' Hrun. apply elem_of_cons in Hr' as [->|Hr'];
             [exfalso; eapply Hgone; [exact Hr | reflexivity]|].
           apply Hold; assumption.
      * destruct Hend as [Hend|Hend]; [left; exact Hend|].
        right. intros r Hr Hr'. apply elem_of_cons in Hr' as [->|Hr'];
          [exfalso; eapply Hgone; [exact Hr | reflexivity]|].
        apply Hend; assumption.
Qed.

Lemma evictOldest_sublist (sorted jobs : list PreloadJob) :
  evictOldest sorted jobs `sublist_of` jobs.
Proof.
  revert jobs. induction sorted as [|job rest IH]; intros jobs; simpl; [reflexivity|].
  destruct (length jobs <=? maxJobs)%nat; [reflexivity|].
  destruct (statusEqb (job_status job) running); [apply IH|].
  etransitivity; [apply IH | apply sublist_filter].
Qed.

Lemma evictOldest_small (sorted jobs : list PreloadJob) :
  (length jobs <= maxJobs)%nat -> evictOldest sorted jobs = jobs.
Proof.
  intros Hsmall. destruct sorted as [|job rest]; simpl; [reflexivity|].
  apply Nat.leb_le in Hsmall. rewrite Hsmall. reflexivity.
Qed.

Lemma filter_all {A : Type} (P : A -> Prop) `{forall x, Decision (P x)} (l : list A) :
  (forall x, x ∈ l -> P x) -> filter P l = l.
Proof.
  induction l as [|x l IH]; intros Hall; [reflexivity|].
  rewrite filter_cons. destruct (decide (P x)) as [_|Hx].
  - f_equal. apply IH. intros y Hy. apply Hall. right. exact Hy.
  - exfalso. apply Hx, Hall. left.
Qed.

Lemma length_deleteJob (jobs : list PreloadJob) (job : PreloadJob) :
  NoDup (map job_id jobs) -> job ∈ jobs ->
  S (length (deleteJob jobs (job_id job))) = length jobs.
Proof.
  unfold deleteJob. induction jobs as [|j jobs IH]; intros Hnodup Hin; [inversion Hin|].
  simpl in Hnodup. apply NoDup_cons in Hnodup as [Hnew Hnodup].
  rewrite filter_cons. destruct (decide _) as [Hkeep|Hdrop]; simpl.
  - apply negb_True in Hkeep. rewrite String_eqb_True in Hkeep.
    apply elem_of_cons in Hin as [->|Hin]; [contradiction|].
    rewrite (IH Hnodup Hin). reflexivity.
  - f_equal. rewrite filter_all; [reflexivity|]. intros x Hx.
    apply negb_True. rewrite String_eqb_True. intros Hid.
    apply Hnew. apply list_elem_of_fmap. exists x. split; [|exact Hx].
    destruct (String.eqb (job_id j) (job_id job)) eqn:E.
    + apply String.eqb_eq in E. congruence.
    + exfalso. apply Hdrop. simpl. exact I.
Qed.

(** The second loop stops as soon as [maxJobs] jobs are left: it ends with
    [maxJobs] jobs, or with the running jobs when they are more. *)
Lemma evictOldest_length (sorted jobs : list PreloadJob) :
  NoDup (map job_id jobs) -> NoDup (map job_id sorted) ->
  (forall j, j ∈ sorted -> j ∈ jobs) ->
  (maxJobs < length jobs)%nat ->
  length (evictOldest sorted jobs) =
    Nat.max maxJobs
      (length jobs - length (filter (fun job => negb (isRunning job)) sorted)).
Proof.
  revert jobs. induction sorted as [|job rest IH]; intros jobs Hjobs Hsorted Hsub Hlarge.
  - simpl. lia.
  - simpl in Hsorted. apply NoDup_cons in Hsorted as [Hnew Hsorted].
    simpl. destruct (length jobs <=? maxJobs)%nat eqn:Hsmall;
      [apply Nat.leb_le in Hsmall; lia|].
    rewrite filter_cons. destruct (decide _) as [Hd|Hd].
    + assert (Hstatus : statusEqb (job_status job) running = false).
      { unfold isRunning in Hd. destruct (statusEqb (job_status job) running);
          [destruct Hd | reflexivity]. }
      rewrite Hstatus.
      assert (Hin : job ∈ jobs) by (apply Hsub; left).
      pose proof (length_deleteJob jobs job Hjobs Hin) as Hlen.
      cbn [length].
      destruct (decide (length (deleteJob jobs (job_id job)) <= maxJobs)%nat) as [Hle|Hgt].
      * rewrite evictOldest_small by exact Hle. lia.
      * rewrite IH.
        -- lia.
        -- eapply sublist_NoDup; [exact Hjobs|]. apply fmap_sublist, sublist_filter.
        -- exact Hsorted.
        -- intros j Hj. apply elem_of_deleteJob. split; [|apply Hsub; right; exact Hj].
           intros Hid. apply Hnew. apply list_elem_of_fmap. exists j. auto.
        -- lia.
    + assert (Hstatus : statusEqb (job_status job) running = true).
      { unfold isRunning in Hd. destruct (statusEqb (job_status job) running);
          [reflexivity | exfalso; apply Hd; exact I]. }
      rewrite Hstatus.
      apply IH; [exact Hjobs | exact Hsorted | | exact Hlarge].
      intros j Hj. apply Hsub. right. exact Hj.
Qed.

Lemma length_filter_running (jobs : list PreloadJob) :
  length jobs = (length (filter (fun job => isRunning job) jobs) +
                 length (filter (fun job => negb (isRunning job)) jobs))%nat.
Proof.
  induction jobs as [|j jobs IH]; [reflexivity|].
  rewrite !filter_cons. destruct (isRunning j) eqn:Hj.
  - destruct (decide _) as [_|Hd]; [|exfalso; apply Hd; exact I].
    destruct (decide _) as [Hd|_]; [destruct Hd|]. simpl. rewrite IH. reflexivity.
  - destruct (decide _) as [Hd|_]; [destruct Hd|].
    destruct (decide _) as [_|Hd]; [|exfalso; apply Hd; exact I]. simpl. rewrite IH. lia.
Qed.

(** C7, as amended. Pruning removes no job that is running, whatever its
    age and the size of the table, and adds nothing. A job that is not
    running (queued, completed or failed) is removed once it was last
    updated more than one hour ago. When at most 25 jobs are left after
    that, they are all kept. When more than 25 are left, the jobs that are
    not running are removed from the oldest [updatedAt] on, until exactly 25
    remain or only running jobs are left: the table ends with 25 jobs, or
    with the running jobs when they are more, and a job evicted is not
    running and not newer than any job that is kept and not running. *)
Theorem C7_prune_keeps_running_evicts_oldest (now : Z) (jobs : list PreloadJob) :
  NoDup (map job_id jobs) ->
  let jobs' := prunePreloadJobs now jobs in
  let lasting := filter (fun job => survivesTtl now job) jobs in
  ttlMs = 3600000%Z /\ maxJobs = 25%nat /\
  jobs' `sublist_of` jobs /\
  (forall j, j ∈ jobs -> job_status j = running -> j ∈ jobs') /\
  (forall j, j ∈ jobs -> job_status j <> running ->
     (ttlMs < now - job_updatedAt j)%Z -> j ∉ jobs') /\
  ((length lasting <= maxJobs)%nat -> jobs' = lasting) /\
  ((maxJobs < length lasting)%nat ->
   length jobs' = Nat.max maxJobs (length (filter (fun job => isRunning job) jobs)) /\
   forall j, j ∈ lasting -> j ∉ jobs' ->
     job_status j <> running /\
     forall r, r ∈ jobs' -> job_status r <> running ->
       (job_updatedAt j <= job_updatedAt r)%Z).
Proof.
  intros Hnodup jobs' lasting. subst jobs'.
  split; [reflexivity|]. split; [reflexivity|]. unfold prunePreloadJobs.
  set (fresh := filter (fun job => negb ((ttlMs <? now - job_updatedAt job)%Z &&
                                         negb (statusEqb (job_status job) running))) jobs).
  assert (Hlasting : fresh = lasting).
  { apply list_filter_iff. intros j. unfold survivesTtl, isRunning.
    destruct (statusEqb (job_status j) running); simpl; [rewrite andb_false_r; tauto|].
    rewrite andb_true_r.
    destruct (ttlMs <? now - job_updatedAt j)%Z eqn:Hage.
    - apply Z.ltb_lt in Hage.
      destruct (now - job_updatedAt j <=? ttlMs)%Z eqn:Hle; [apply Z.leb_le in Hle; lia|].
      tauto.
    - apply Z.ltb_ge in Hage.
      destruct (now - job_updatedAt j <=? ttlMs)%Z eqn:Hle; [|apply Z.leb_gt in Hle; lia].
      tauto. }
  assert (Hfresh : forall j, j ∈ fresh <->
            (~ ((ttlMs < now - job_updatedAt j)%Z /\ job_status j <> running)) /\ j ∈ jobs).
  { intros j. subst fresh. rewrite list_elem_of_filter, negb_True, andb_True, negb_True.
    rewrite statusEqb_True, Is_true_true, Z.ltb_lt. reflexivity. }
  assert (Hrunning : forall j, j ∈ jobs -> job_status j = running -> j ∈ fresh).
  { intros j Hj Hrun. apply Hfresh. split; [|exact Hj]. intros [_ Hnr]. contradiction. }
  assert (Hcount : filter (fun job => isRunning job) fresh =
                   filter (fun job => isRunning job) jobs).
  { subst fresh. rewrite list_filter_filter. apply list_filter_iff. intros j.
    unfold isRunning. destruct (statusEqb (job_status j) running); simpl;
      [rewrite andb_false_r; simpl; tauto | tauto]. }
  destruct (length fresh <=? maxJobs)%nat eqn:Hsmall.
  - apply Nat.leb_le in Hsmall.
    split; [apply sublist_filter|].
    split; [exact Hrunning|].
    split; [intros j Hj Hnr Hage Hin; apply Hfresh in Hin as [Hin _]; apply Hin; auto|].
    split; [intros _; exact Hlasting|].
    intros Hlarge. rewrite <- Hlasting in Hlarge. lia.
  - apply Nat.leb_gt in Hsmall.
    set (sorted := sortBy (fun a b => (job_updatedAt a - job_updatedAt b)%Z) fresh).
    assert (Hsorted : StronglySorted updatedBefore sorted).
    { eapply StronglySorted_weaken; [|apply sortBy_sorted].
      - intros a b Hab. unfold sortsBefore in Hab. unfold updatedBefore. lia.
      - intros a b. unfold sortsBefore. lia.
      - intros a b c. unfold sortsBefore. lia. }
    assert (Hnodup' : NoDup (map job_id fresh)).
    { eapply sublist_NoDup; [exact Hnodup|]. apply fmap_sublist, sublist_filter. }
    destruct (evictOldest_spec fresh sorted fresh Hnodup') as (Hsub & Hkeep & Hevicted & Hend);
      [intros j Hj; apply elem_of_sortBy in Hj; exact Hj | auto | exact Hsorted |].
    cbn zeta in Hsub, Hkeep, Hevicted, Hend.
    split; [etransitivity; [apply evictOldest_sublist | apply sublist_filter]|].
    split.
    { intros j Hj Hrun. apply Hkeep; [apply Hrunning; assumption | exact Hrun]. }
    split.
    { intros j Hj Hnr Hage Hin. apply Hsub, Hfresh in Hin as [Hin _]. apply Hin. auto. }
    split; [intros Hle; rewrite <- Hlasting in Hle; lia|].
    intros _. split.
    + rewrite evictOldest_length.
      * f_equal. rewrite <- Hcount.
        assert (Hperm : filter (fun job => negb (isRunning job)) sorted ≡ₚ
                        filter (fun job => negb (isRunning job)) fresh)
          by (unfold sorted; rewrite sortBy_Permutation; reflexivity).
        rewrite (Permutation_length Hperm).
        pose proof (length_filter_running fresh). lia.
      * exact Hnodup'.
      * assert (Hp : map job_id sorted ≡ₚ map job_id fresh)
          by (apply Permutation_map, sortBy_Permutation).
        rewrite Hp. exact Hnodup'.
      * intros j Hj. apply elem_of_sortBy in Hj. exact Hj.
      * exact Hsmall.
    + intros j Hj Hout. rewrite <- Hlasting in Hj.
      destruct (Hevicted j Hj Hout) as (Hnr & _ & Holder).
      split; [exact Hnr|]. intros r Hr Hrnr. apply Holder; [exact Hr | | exact Hrnr].
      apply elem_of_sortBy, Hsub, Hr.
Qed.

End JobTableFacts.

(** C7 as stated fails for a job that is queued: it is not terminal, and it
    is removed once it is older than one hour; and a queued job is also
    removed, whatever its age, when the table holds more than 25 jobs and
    the others are running. *)
Lemma C7_counterexample :
  PreloadJobManager.isTerminal PreloadJobManager.queued = false /\
  PreloadJobManager.prunePreloadJobs 3600001
    [exampleJob "job-1" PreloadJobManager.queued 0] = [] /\
  map PreloadJobManager.job_id
    (PreloadJobManager.prunePreloadJobs 1000
       (map (fun n => exampleJob ("run-" +:+ JsString.ofNat n) PreloadJobManager.running 500)
            (seq 0 25)
        ++ [exampleJob "job-1" PreloadJobManager.queued 900]))
  = map (fun n => "run-" +:+ JsString.ofNat n) (seq 0 25).
Proof. split; [reflexivity|]. split; vm_compute; reflexivity. Qed.

Lemma C7_prune_witness :
  let jobs := [exampleJob "old-running" PreloadJobManager.running 0;
               exampleJob "old-failed" PreloadJobManager.failed 0;
               exampleJob "new-completed" PreloadJobManager.completed 3600000] in
  PreloadJobManager.prunePreloadJobs 3600001 jobs =
    [exampleJob "old-running" PreloadJobManager.running 0;
     exampleJob "new-completed" PreloadJobManager.completed 3600000].
Proof.
  intros jobs.
  destruct (C7_prune_keeps_running_evicts_oldest 3600001 jobs)
    as (_ & _ & _ & _ & _ & Hall & _).
  - subst jobs. simpl. apply (bool_decide_unpack _). vm_compute. exact I.
  - rewrite Hall; [|vm_compute; lia]. vm_compute. reflexivity.
Defined.

(** ** The life of a job *)
Section JobRunFacts.
Import JsString JsArray JsNumber PreloadTypes PreloadJobManager.
Context {E : Type} `{JobEnvironment E}.
Local Abbreviation State := (@State E).

(** C10. For a job identifier that is no longer in the table of the jobs,
    the answer of [getPreloadJobResult] comes from the persisted snapshot,
    which holds the status and no result: a snapshot that is completed gives
    [not_found] with the message that the result has expired, a snapshot
    that is queued or running gives [unfinished], a failed one gives
    [failed] with its error; without a snapshot the job is not found. The
    answer is never [completed]: the result cannot be recovered. *)
Theorem C10_evicted_job_result (st : State) (id : string) :
  getJob (prunePreloadJobs (dateNow (env st)) (preloadJobs st)) id = None ->
  (getPreloadJobResult st id).2 =
    match readJobSnapshot (store st) id with
    | Some persisted =>
        match snap_status persisted with
        | completed =>
            StateNotFound
              "Preload job completed but its result has expired and is no longer available."
        | failed =>
            StateFailed (orElse (default EmptyString (snap_error persisted))
                                "Preload job failed.")
        | queued | running =>
            StateUnfinished "Preload job exists but is unfinished (from jobs.json list)."
        end
    | None => StateNotFound "Preload job not found."
    end /\
  (forall result, (getPreloadJobResult st id).2 <> StateCompleted result) /\
  store (getPreloadJobResult st id).1 = store st.
Proof.
  intros Hevicted.
  assert (Hrun : getPreloadJobResult st id =
                 let st1 := withJobs st (prunePreloadJobs (dateNow (env st)) (preloadJobs st)) in
                 match readJobSnapshot (store st) id with
                 | Some persisted =>
                     match snap_status persisted with
                     | completed =>
                         (st1, StateNotFound
                            "Preload job completed but its result has expired and is no longer available.")
                     | failed =>
                         (st1, StateFailed (orElse (default EmptyString (snap_error persisted))
                                                   "Preload job failed."))
                     | queued | running =>
                         (st1, StateUnfinished
                            "Preload job exists but is unfinished (from jobs.json list).")
                     end
                 | None => (st1, StateNotFound "Preload job not found.")
                 end).
  { unfold getPreloadJobResult. cbn [withJobs preloadJobs store env]. rewrite Hevicted.
    destruct (readJobSnapshot (store st) id) as [persisted|]; [|reflexivity].
    destruct (snap_status persisted); reflexivity. }
  rewrite Hrun. cbn zeta.
  destruct (readJobSnapshot (store st) id) as [persisted|];
    [destruct (snap_status persisted)|]; simpl; repeat split; intros; discriminate.
Qed.

(** *** The steps of a run keep the job in the table *)



Lemma jobAt_withEnv id status before onDisk (st : State) (e : E) :
  jobAt id status before onDisk st -> jobAt id status before onDisk (withEnv st e).
Proof. intros Hst. exact Hst. Qed.











End JobRunFacts.



Lemma C10_evicted_job_witness :
  (PreloadJobManager.getPreloadJobResult (H := ExampleJobs.unreachable)
     {| PreloadJobManager.preloadJobs := [];
        PreloadJobManager.store :=
          PreloadJobManager.safeWriteJobSnapshot ExampleJobs.emptyStore
            PreloadJobManager.Written
            (PreloadJobManager.snapshotOf
               (exampleJob "job-1" PreloadJobManager.completed 0));
        PreloadJobManager.env := ExampleJobs.emptyDisk |} "job-1").2
  = PreloadJobManager.StateNotFound
      "Preload job completed but its result has expired and is no longer available.".
Proof.
  destruct (C10_evicted_job_result (H := ExampleJobs.unreachable)
              {| PreloadJobManager.preloadJobs := [];
                 PreloadJobManager.store :=
                   PreloadJobManager.safeWriteJobSnapshot ExampleJobs.emptyStore
                     PreloadJobManager.Written
                     (PreloadJobManager.snapshotOf
                        (exampleJob "job-1" PreloadJobManager.completed 0));
                 PreloadJobManager.env := ExampleJobs.emptyDisk |} "job-1")
    as [Hanswer _]; [reflexivity|].
  rewrite Hanswer. vm_compute. reflexivity.
Defined.


(** ** The pacing of the requests (src/lib/fetch.ts) *)
Section SchedulerFacts.
Import Fetch.

Lemma lastAcquisition_elem (h : string) (log : list Acquisition) (b : Acquisition) :
  lastAcquisition h log = Some b -> b ∈ log /\ at_host b = h.
Proof.
  induction log as [|a older IH]; simpl; [discriminate|].
  destruct (String.eqb (at_host a) h) eqn:Hh.
  - intros [= <-]. split; [left | apply String.eqb_eq, Hh].
  - intros Hb. destruct (IH Hb) as [Hin Hhost]. split; [right; exact Hin | exact Hhost].
Qed.

(** The calls after the phase of the call [i] is set to [phase]. *)
Lemma lookup_alter_phase (l : list Acquire) (i : nat) (phase : Phase) (k : nat) :
  alter (withPhase phase) i l !! k =
    (fun c => if decide (k = i) then withPhase phase c else c) <$> l !! k.
Proof.
  destruct (decide (k = i)) as [->|Hne].
  - rewrite list_lookup_alter_eq. reflexivity.
  - rewrite list_lookup_alter_ne by congruence. destruct (l !! k); reflexivity.
Qed.

Lemma lookup_alter_phase_Some (l : list Acquire) (i : nat) (phase : Phase) (k : nat)
    (c' : Acquire) :
  alter (withPhase phase) i l !! k = Some c' ->
  exists c, l !! k = Some c /\
    acq_host c' = acq_host c /\ acq_minIntervalMs c' = acq_minIntervalMs c /\
    acq_previous c' = acq_previous c /\
    ((k = i /\ acq_phase c' = phase) \/ (k <> i /\ acq_phase c' = acq_phase c)).
Proof.
  rewrite lookup_alter_phase. destruct (l !! k) as [c|]; [|discriminate].
  simpl. intros [= <-]. exists c. split; [reflexivity|].
  destruct (decide (k = i)); simpl; auto 10.
Qed.

(** A call whose gate may start: the earlier calls for its host are all
    released. *)
Lemma earlier_released (s : Scheduler) (i : nat) (c : Acquire) :
  Invariant s -> calls s !! i = Some c -> previousResolved s c = true ->
  forall k ck, calls s !! k = Some ck -> acq_host ck = acq_host c -> (k < i)%nat ->
               acq_phase ck = Released.
Proof.
  intros Hinv Hc Hres k ck Hk Hhost Hlt.
  pose proof (inv_previous s Hinv i c Hc) as Hprev.
  unfold previousResolved in Hres.
  destruct (acq_previous c) as [p|]; [|exfalso; eapply Hprev; eauto].
  destruct Hprev as (Hpi & (cp & Hp & Hph) & Hlatest).
  rewrite Hp in Hres.
  assert (Hrel : acq_phase cp = Released) by (destruct cp as [? ? ? []]; simpl in *; congruence).
  specialize (Hlatest k ck Hk Hhost Hlt).
  destruct (decide (k = p)) as [->|Hne]; [congruence|].
  eapply (inv_fifo s Hinv k p ck cp); [lia | exact Hk | exact Hp | congruence |].
  rewrite Hrel. discriminate.
Qed.

(** While a call is past the start of its gate and not released, no other
    call for its host is. *)
Lemma one_at_the_gate (s : Scheduler) (i j : nat) (ci cj : Acquire) :
  Invariant s -> calls s !! i = Some ci -> calls s !! j = Some cj ->
  acq_host ci = acq_host cj -> i <> j ->
  acq_phase ci <> Waiting -> acq_phase ci <> Released ->
  acq_phase cj = Waiting \/ acq_phase cj = Released.
Proof.
  intros Hinv Hi Hj Hhost Hne Hnw Hnr.
  destruct (decide (i < j)%nat) as [Hlt|Hge].
  - left. destruct (acq_phase cj) eqn:Hphase; try reflexivity; exfalso; apply Hnr;
      eapply (inv_fifo s Hinv i j ci cj); eauto; rewrite Hphase; discriminate.
  - right. eapply (inv_fifo s Hinv j i cj ci); eauto; lia.
Qed.

Lemma lookup_alter_phase_exists (l : list Acquire) (i : nat) (phase : Phase) (k : nat)
    (c : Acquire) :
  l !! k = Some c ->
  exists c', alter (withPhase phase) i l !! k = Some c' /\ acq_host c' = acq_host c.
Proof.
  intros Hk. rewrite lookup_alter_phase, Hk. simpl. eexists. split; [reflexivity|].
  destruct (decide (k = i)); reflexivity.
Qed.

(** A change of phase keeps the chains of the calls and the locks. *)
Lemma previous_alter_phase (s : Scheduler) (i : nat) (phase : Phase) (calls' : list Acquire) :
  Invariant s -> calls' = alter (withPhase phase) i (calls s) ->
  forall j c, calls' !! j = Some c ->
    match acq_previous c with
    | Some p =>
        (p < j)%nat /\
        (exists cp, calls' !! p = Some cp /\ acq_host cp = acq_host c) /\
        forall k ck, calls' !! k = Some ck -> acq_host ck = acq_host c ->
                     (k < j)%nat -> (k <= p)%nat
    | None =>
        forall k ck, calls' !! k = Some ck -> acq_host ck = acq_host c -> ~ (k < j)%nat
    end.
Proof.
  intros Hinv -> j c Hj.
  apply lookup_alter_phase_Some in Hj as (c0 & Hj0 & Hhost & _ & Hprev & _).
  pose proof (inv_previous s Hinv j c0 Hj0) as Hold. rewrite Hprev.
  destruct (acq_previous c0) as [p|].
  - destruct Hold as (Hlt & (cp & Hp & Hph) & Hlatest).
    split; [exact Hlt|]. split.
    + destruct (lookup_alter_phase_exists (calls s) i phase p cp Hp) as (cp' & Hp' & Hh').
      exists cp'. split; [exact Hp' | congruence].
    + intros k ck Hk Hkh. apply lookup_alter_phase_Some in Hk as (ck0 & Hk0 & Hkh0 & _).
      apply (Hlatest k ck0 Hk0). congruence.
  - intros k ck Hk Hkh. apply lookup_alter_phase_Some in Hk as (ck0 & Hk0 & Hkh0 & _).
    apply (Hold k ck0 Hk0). congruence.
Qed.

Lemma locks_alter_phase (s : Scheduler) (i : nat) (phase : Phase) (calls' : list Acquire) :
  Invariant s -> calls' = alter (withPhase phase) i (calls s) ->
  forall h,
    match hostLocks s !! h with
    | Some l =>
        (exists c, calls' !! l = Some c /\ acq_host c = h) /\
        forall k ck, calls' !! k = Some ck -> acq_host ck = h -> (k <= l)%nat
    | None => forall k ck, calls' !! k = Some ck -> acq_host ck <> h
    end.
Proof.
  intros Hinv -> h. pose proof (inv_locks s Hinv h) as Hold.
  destruct (hostLocks s !! h) as [l|].
  - destruct Hold as ((c & Hl & Hh) & Hlatest). split.
    + destruct (lookup_alter_phase_exists (calls s) i phase l c Hl) as (c' & Hl' & Hh').
      exists c'. split; [exact Hl' | congruence].
    + intros k ck Hk Hkh. apply lookup_alter_phase_Some in Hk as (ck0 & Hk0 & Hkh0 & _).
      apply (Hlatest k ck0 Hk0). congruence.
  - intros k ck Hk. apply lookup_alter_phase_Some in Hk as (ck0 & Hk0 & Hkh0 & _).
    rewrite Hkh0. apply (Hold k ck0 Hk0).
Qed.

(** The order of service is kept when the call [i] advances, provided the
    earlier calls for its host are released when it leaves [Waiting]. *)
Lemma fifo_alter_phase (s : Scheduler) (i : nat) (ci : Acquire) (phase : Phase) :
  Invariant s -> calls s !! i = Some ci ->
  (acq_phase ci = Waiting ->
   forall k ck, calls s !! k = Some ck -> acq_host ck = acq_host ci -> (k < i)%nat ->
                acq_phase ck = Released) ->
  (phase <> Released ->
   forall k ck, calls s !! k = Some ck -> acq_host ck = acq_host ci -> (i < k)%nat ->
                acq_phase ck = Waiting) ->
  forall p j cp cj,
    (p < j)%nat -> alter (withPhase phase) i (calls s) !! p = Some cp ->
    alter (withPhase phase) i (calls s) !! j = Some cj ->
    acq_host cp = acq_host cj -> acq_phase cj <> Waiting -> acq_phase cp = Released.
Proof.
  intros Hinv Hi Hearlier Hlater p j cp cj Hlt Hp Hj Hhost Hnw.
  apply lookup_alter_phase_Some in Hp as (cp0 & Hp0 & Hph & _ & _ & Hpphase).
  apply lookup_alter_phase_Some in Hj as (cj0 & Hj0 & Hjh & _ & _ & Hjphase).
  destruct Hpphase as [[-> Hpp]|[Hpne Hpp]]; destruct Hjphase as [[-> Hjp]|[Hjne Hjp]].
  - lia.
  - (* p = i < j *)
    assert (cp0 = ci) as -> by congruence.
    assert (Hd : phase = Released \/ phase <> Released)
      by (destruct phase; auto; right; discriminate).
    destruct Hd as [->|Hnr]; [exact Hpp|].
    exfalso. apply Hnw. rewrite Hjp. apply (Hlater Hnr j cj0 Hj0); [congruence | exact Hlt].
  - (* p < j = i *)
    assert (cj0 = ci) as -> by congruence. rewrite Hpp.
    destruct (acq_phase ci) eqn:Hphase.
    + apply (Hearlier eq_refl p cp0 Hp0); [congruence | exact Hlt].
    + eapply (inv_fifo s Hinv p i cp0 ci); eauto; [congruence | rewrite Hphase; discriminate].
    + eapply (inv_fifo s Hinv p i cp0 ci); eauto; [congruence | rewrite Hphase; discriminate].
    + eapply (inv_fifo s Hinv p i cp0 ci); eauto; [congruence | rewrite Hphase; discriminate].
  - rewrite Hpp. eapply (inv_fifo s Hinv p j cp0 cj0); eauto; congruence.
Qed.

(** The calls after the call [i], for the same host, still wait. *)
Lemma later_waiting (s : Scheduler) (i : nat) (ci : Acquire) :
  Invariant s -> calls s !! i = Some ci -> acq_phase ci <> Released ->
  forall k ck, calls s !! k = Some ck -> acq_host ck = acq_host ci -> (i < k)%nat ->
               acq_phase ck = Waiting.
Proof.
  intros Hinv Hi Hnr k ck Hk Hhost Hlt.
  destruct (acq_phase ck) eqn:Hphase; try reflexivity; exfalso; apply Hnr;
    eapply (inv_fifo s Hinv i k ci ck); eauto; rewrite Hphase; discriminate.
Qed.

(** *** Each event keeps the invariant *)

Lemma invariant_initial : Invariant initial.
Proof.
  split; simpl.
  - intros i c Hc. rewrite lookup_nil in Hc. discriminate.
  - intros h. rewrite lookup_empty. intros k ck Hk. rewrite lookup_nil in Hk. discriminate.
  - intros p j cp cj _ Hp. rewrite lookup_nil in Hp. discriminate.
  - intros a Ha. inversion Ha.
  - intros h. rewrite lookup_empty. reflexivity.
  - intros j c wake Hc. rewrite lookup_nil in Hc. discriminate.
  - exact I.
Qed.

Lemma invariant_call (s : Scheduler) (host : string) (minIntervalMs t : Z) :
  Invariant s ->
  Invariant {| calls := calls s ++ [{| acq_host := host; acq_minIntervalMs := minIntervalMs;
                                      acq_previous := hostLocks s !! host;
                                      acq_phase := Waiting |}];
               hostLocks := <[host := length (calls s)]> (hostLocks s);
               hostLastRequestAt := hostLastRequestAt s;
               clock := t;
               acquisitions := acquisitions s |}.
Proof.
  intros Hinv.
  set (new := {| acq_host := host; acq_minIntervalMs := minIntervalMs;
                 acq_previous := hostLocks s !! host; acq_phase := Waiting |}).
  assert (Hold : forall k ck, (calls s ++ [new]) !! k = Some ck -> (k < length (calls s))%nat ->
                              calls s !! k = Some ck).
  { intros k ck Hk Hlt. rewrite lookup_app_l in Hk by exact Hlt. exact Hk. }
  assert (Hcases : forall k ck, (calls s ++ [new]) !! k = Some ck ->
            ((k < length (calls s))%nat /\ calls s !! k = Some ck) \/
            (k = length (calls s) /\ ck = new)).
  { intros k ck Hk. apply lookup_snoc_Some in Hk as [[Hlt Hk]|[-> <-]]; auto. }
  split; simpl.
  - intros i c Hc. destruct (Hcases i c Hc) as [[Hlt Hc0]|[-> ->]].
    + pose proof (inv_previous s Hinv i c Hc0) as Hprev.
      destruct (acq_previous c) as [p|].
      * destruct Hprev as (Hpi & (cp & Hp & Hph) & Hlatest).
        split; [exact Hpi|]. split.
        -- exists cp. split; [apply lookup_app_l_Some, Hp | exact Hph].
        -- intros k ck Hk Hkh Hki. apply (Hlatest k ck); [apply Hold; [exact Hk | lia] | | ];
             assumption.
      * intros k ck Hk Hkh Hki. apply (Hprev k ck); [apply Hold; [exact Hk | lia] | | ];
          assumption.
    + simpl. pose proof (inv_locks s Hinv host) as Hlock.
      destruct (hostLocks s !! host) as [l|].
      * destruct Hlock as ((c & Hl & Hh) & Hlatest).
        split; [apply lookup_lt_Some in Hl; exact Hl|]. split.
        -- exists c. split; [apply lookup_app_l_Some, Hl | exact Hh].
        -- intros k ck Hk Hkh Hki. apply (Hlatest k ck); [apply Hold; assumption | exact Hkh].
      * intros k ck Hk Hkh Hki. apply (Hlock k ck); [apply Hold; assumption | exact Hkh].
  - intros h. destruct (decide (host = h)) as [->|Hne].
    + rewrite lookup_insert_eq. split.
      * exists new. split; [|reflexivity]. apply lookup_snoc_Some. auto.
      * intros k ck Hk _. apply lookup_lt_Some in Hk. rewrite length_app in Hk. simpl in Hk. lia.
    + rewrite lookup_insert_ne by exact Hne. pose proof (inv_locks s Hinv h) as Hlock.
      destruct (hostLocks s !! h) as [l|].
      * destruct Hlock as ((c & Hl & Hh) & Hlatest). split.
        -- exists c. split; [apply lookup_app_l_Some, Hl | exact Hh].
        -- intros k ck Hk Hkh. destruct (Hcases k ck Hk) as [[Hlt Hk0]|[-> ->]];
             [apply (Hlatest k ck Hk0 Hkh) | simpl in Hkh; congruence].
      * intros k ck Hk. destruct (Hcases k ck Hk) as [[Hlt Hk0]|[-> ->]];
          [apply (Hlock k ck Hk0) | simpl; exact Hne].
  - intros p j cp cj Hlt Hp Hj Hhost Hnw.
    destruct (Hcases j cj Hj) as [[Hjlt Hj0]|[-> ->]]; [|simpl in Hnw; congruence].
    eapply (inv_fifo s Hinv p j cp cj); eauto. apply Hold; [exact Hp | lia].
  - intros a Ha. destruct (inv_log s Hinv a Ha) as (c & Hc & Hrest).
    exists c. split; [apply lookup_app_l_Some, Hc | exact Hrest].
  - apply (inv_last s Hinv).
  - intros j c wake Hc Hphase.
    destruct (Hcases j c Hc) as [[Hlt Hc0]|[-> ->]]; [|simpl in Hphase; discriminate].
    apply (inv_sleep s Hinv j c wake Hc0 Hphase).
  - apply (inv_paced s Hinv).
Qed.

Lemma invariant_sleep (s : Scheduler) (i : nat) (c : Acquire) (t wake : Z) :
  Invariant s -> calls s !! i = Some c -> acq_phase c = Waiting ->
  previousResolved s c = true ->
  (default 0 (hostLastRequestAt s !! acq_host c) + acq_minIntervalMs c <= wake)%Z ->
  Invariant (setPhase s i (Sleeping wake) t).
Proof.
  intros Hinv Hi Hphase Hres Hwake. split; simpl.
  - apply (previous_alter_phase s i (Sleeping wake)); [exact Hinv | reflexivity].
  - apply (locks_alter_phase s i (Sleeping wake)); [exact Hinv | reflexivity].
  - apply (fifo_alter_phase s i c); [exact Hinv | exact Hi | |].
    + intros _. apply (earlier_released s i c Hinv Hi Hres).
    + intros _. apply (later_waiting s i c Hinv Hi). rewrite Hphase. discriminate.
  - intros a Ha. destruct (inv_log s Hinv a Ha) as (c0 & Hc0 & Hh & Hp).
    rewrite lookup_alter_phase, Hc0. simpl. eexists. split; [reflexivity|].
    destruct (decide (at_call a = i)) as [Heq|Hne]; [|auto].
    exfalso. rewrite Heq in Hc0. assert (c0 = c) as -> by congruence.
    rewrite Hphase in Hp. destruct Hp; discriminate.
  - apply (inv_last s Hinv).
  - intros j cj w Hj Hjphase.
    apply lookup_alter_phase_Some in Hj as (cj0 & Hj0 & Hjh & Hjm & _ & Hcase).
    rewrite Hjh, Hjm. destruct Hcase as [[-> Hp]|[Hne Hp]].
    + assert (cj0 = c) as -> by congruence. rewrite Hjphase in Hp. injection Hp as ->.
      exact Hwake.
    + apply (inv_sleep s Hinv j cj0 w Hj0). congruence.
  - apply (inv_paced s Hinv).
Qed.

Lemma invariant_release (s : Scheduler) (i : nat) (c : Acquire) (t : Z) :
  Invariant s -> calls s !! i = Some c -> acq_phase c = Holding ->
  Invariant (setPhase s i Released t).
Proof.
  intros Hinv Hi Hphase. split; simpl.
  - apply (previous_alter_phase s i Released); [exact Hinv | reflexivity].
  - apply (locks_alter_phase s i Released); [exact Hinv | reflexivity].
  - apply (fifo_alter_phase s i c); [exact Hinv | exact Hi | |].
    + intros Hw. congruence.
    + intros Hnr. congruence.
  - intros a Ha. destruct (inv_log s Hinv a Ha) as (c0 & Hc0 & Hh & Hp).
    rewrite lookup_alter_phase, Hc0. simpl. eexists. split; [reflexivity|].
    destruct (decide (at_call a = i)); simpl; auto.
  - apply (inv_last s Hinv).
  - intros j cj w Hj Hjphase.
    apply lookup_alter_phase_Some in Hj as (cj0 & Hj0 & Hjh & Hjm & _ & Hcase).
    rewrite Hjh, Hjm. destruct Hcase as [[-> Hp]|[Hne Hp]]; [congruence|].
    apply (inv_sleep s Hinv j cj0 w Hj0). congruence.
  - apply (inv_paced s Hinv).
Qed.

Lemma invariant_passGate (s : Scheduler) (i : nat) (c : Acquire) (t : Z) :
  Invariant s -> calls s !! i = Some c ->
  (acq_phase c = Waiting /\ previousResolved s c = true) \/
  (exists wake, acq_phase c = Sleeping wake) ->
  (default 0 (hostLastRequestAt s !! acq_host c) + acq_minIntervalMs c <= t)%Z ->
  Invariant (passGate s i c t).
Proof.
  intros Hinv Hi Hphase Hlast.
  assert (Hnr : acq_phase c <> Released)
    by (destruct Hphase as [[-> _]|[w ->]]; discriminate).
  assert (Hnh : acq_phase c <> Holding)
    by (destruct Hphase as [[-> _]|[w ->]]; discriminate).
  split; simpl.
  - apply (previous_alter_phase s i Holding); [exact Hinv | reflexivity].
  - apply (locks_alter_phase s i Holding); [exact Hinv | reflexivity].
  - apply (fifo_alter_phase s i c); [exact Hinv | exact Hi | |].
    + intros Hw. destruct Hphase as [[_ Hres]|[w Hs]]; [|congruence].
      apply (earlier_released s i c Hinv Hi Hres).
    + intros _. apply (later_waiting s i c Hinv Hi Hnr).
  - intros a Ha. apply elem_of_cons in Ha as [->|Ha]; simpl.
    + rewrite list_lookup_alter_eq, Hi. simpl. eexists. split; [reflexivity|]. simpl. auto.
    + destruct (inv_log s Hinv a Ha) as (c0 & Hc0 & Hh & Hp).
      rewrite lookup_alter_phase, Hc0. simpl. eexists. split; [reflexivity|].
      destruct (decide (at_call a = i)); simpl; auto.
  - intros h. destruct (String.eqb (acq_host c) h) eqn:Hh.
    + apply String.eqb_eq in Hh. subst h. rewrite lookup_insert_eq. reflexivity.
    + apply String.eqb_neq in Hh. rewrite lookup_insert_ne by exact Hh.
      apply (inv_last s Hinv).
  - intros j cj w Hj Hjphase.
    apply lookup_alter_phase_Some in Hj as (cj0 & Hj0 & Hjh & Hjm & _ & Hcase).
    rewrite Hjh, Hjm. destruct Hcase as [[-> Hp]|[Hne Hp]]; [congruence|].
    assert (Hjs : acq_phase cj0 = Sleeping w) by congruence.
    destruct (decide (acq_host c = acq_host cj0)) as [Hsame|Hdiff].
    + exfalso.
      destruct (one_at_the_gate s j i cj0 c Hinv Hj0 Hi) as [Hw|Hr];
        [congruence | exact Hne | rewrite Hjs; discriminate | rewrite Hjs; discriminate
         | | contradiction].
      destruct Hphase as [[_ Hres]|[w' Hs]]; [|congruence].
      destruct (decide (j < i)%nat) as [Hlt|Hge].
      * pose proof (earlier_released s i c Hinv Hi Hres j cj0 Hj0 (eq_sym Hsame) Hlt). congruence.
      * apply Hnr. eapply (inv_fifo s Hinv i j c cj0); eauto; [lia | rewrite Hjs; discriminate].
    + rewrite lookup_insert_ne by exact Hdiff. apply (inv_sleep s Hinv j cj0 w Hj0 Hjs).
  - split; [|apply (inv_paced s Hinv)].
    destruct (lastAcquisition (acq_host c) (acquisitions s)) as [b|] eqn:Hb; [|exact I].
    split.
    + pose proof (inv_last s Hinv (acq_host c)) as Hl. rewrite Hb in Hl. simpl in Hl.
      rewrite Hl in Hlast. simpl in Hlast. exact Hlast.
    + destruct (lastAcquisition_elem _ _ _ Hb) as [Hin Hbh].
      destruct (inv_log s Hinv b Hin) as (cb & Hcb & Hcbh & Hcbp).
      destruct (decide (at_call b < i)%nat) as [Hlt|Hge]; [exact Hlt|]. exfalso.
      destruct (decide (at_call b = i)) as [Heq|Hne].
      * rewrite Heq in Hcb. assert (cb = c) as -> by congruence.
        destruct Hcbp; contradiction.
      * apply Hnr. eapply (inv_fifo s Hinv i (at_call b) c cb); eauto; [lia | congruence |].
        destruct Hcbp as [-> | ->]; discriminate.
Qed.

Lemma step_invariant (s : Scheduler) (t : Z) (e : Event) (s' : Scheduler) :
  Invariant s -> step s t e = Some s' -> Invariant s'.
Proof.
  intros Hinv Hstep. unfold step in Hstep.
  destruct (t <? clock s)%Z; [discriminate|].
  destruct e as [host m|i|i|i].
  - injection Hstep as <-. apply invariant_call, Hinv.
  - destruct (calls s !! i) as [c|] eqn:Hi; [|discriminate]. simpl in Hstep.
    destruct (acq_phase c) eqn:Hphase; try discriminate.
    destruct (previousResolved s c) eqn:Hres; [|discriminate].
    set (last := default 0%Z (hostLastRequestAt s !! acq_host c)) in *.
    destruct (0 <? Z.max 0 (acq_minIntervalMs c - (t - last)))%Z eqn:Hwait;
      injection Hstep as <-.
    + apply (invariant_sleep s i c); auto. fold last. lia.
    + apply Z.ltb_ge in Hwait. apply (invariant_passGate s i c); auto. fold last. lia.
  - destruct (calls s !! i) as [c|] eqn:Hi; [|discriminate]. simpl in Hstep.
    destruct (acq_phase c) as [|wake| |] eqn:Hphase; try discriminate.
    destruct (wake <=? t)%Z eqn:Hfired; [|discriminate]. injection Hstep as <-.
    apply Z.leb_le in Hfired.
    apply (invariant_passGate s i c); [exact Hinv | exact Hi | right; eauto |].
    pose proof (inv_sleep s Hinv i c wake Hi Hphase). lia.
  - destruct (calls s !! i) as [c|] eqn:Hi; [|discriminate]. simpl in Hstep.
    destruct (acq_phase c) eqn:Hphase; try discriminate. injection Hstep as <-.
    apply (invariant_release s i c); assumption.
Qed.

Lemma run_invariant (events : list (Z * Event)) (s s' : Scheduler) :
  Invariant s -> run s events = Some s' -> Invariant s'.
Proof.
  revert s. induction events as [|[t e] rest IH]; intros s Hinv Hrun; simpl in Hrun.
  - injection Hrun as <-. exact Hinv.
  - destruct (step s t e) as [s1|] eqn:Hstep; [|discriminate]. simpl in Hrun.
    apply (IH s1); [eapply step_invariant; eassumption | exact Hrun].
Qed.

(** C3. In every state that the events of the program can reach: each
    acquisition for a host comes at least [minIntervalMs] (that of its
    call) after the acquisition before it for that host, whose time is the
    one read in [hostLastRequestAt], and comes from a later call: the calls
    for a host are served in the order in which they were made; and a call
    waits only for calls to its own host: its previous promise is that of a
    call for the same host, and once the earlier calls for its host are
    released its gate can start, whatever the calls for the other hosts
    do. *)
Theorem C3_host_pacing (events : list (Z * Event)) (s : Scheduler) :
  run initial events = Some s ->
  Paced (acquisitions s) /\
  (forall h, hostLastRequestAt s !! h = at_time <$> lastAcquisition h (acquisitions s)) /\
  (forall j c p, calls s !! j = Some c -> acq_previous c = Some p ->
     exists cp, calls s !! p = Some cp /\ acq_host cp = acq_host c) /\
  (forall j c t, calls s !! j = Some c -> acq_phase c = Waiting -> (clock s <= t)%Z ->
     (forall k ck, calls s !! k = Some ck -> acq_host ck = acq_host c -> (k < j)%nat ->
                   acq_phase ck = Released) ->
     is_Some (step s t (EnterGate j))).
Proof.
  intros Hrun.
  pose proof (run_invariant events initial s invariant_initial Hrun) as Hinv.
  split; [apply (inv_paced s Hinv)|]. split; [apply (inv_last s Hinv)|]. split.
  - intros j c p Hj Hp. pose proof (inv_previous s Hinv j c Hj) as Hprev.
    rewrite Hp in Hprev. apply Hprev.
  - intros j c t Hj Hphase Ht Hearlier. unfold step.
    assert (Hclock : (t <? clock s)%Z = false) by (apply Z.ltb_ge; lia).
    rewrite Hclock, Hj. simpl. rewrite Hphase.
    assert (Hres : previousResolved s c = true).
    { unfold previousResolved. pose proof (inv_previous s Hinv j c Hj) as Hprev.
      destruct (acq_previous c) as [p|]; [|reflexivity].
      destruct Hprev as (Hlt & (cp & Hp & Hh) & _). rewrite Hp.
      pose proof (Hearlier p cp Hp Hh Hlt) as Hrel.
      destruct cp as [? ? ? ph]. simpl in Hrel. rewrite Hrel. reflexivity. }
    rewrite Hres. destruct (0 <? _)%Z; eauto.
Qed.

End SchedulerFacts.

Lemma C3_host_pacing_witness :
  Fetch.run Fetch.initial pacedRun = Some pacedState /\
  map (fun a => (Fetch.at_host a, Fetch.at_time a)) (Fetch.acquisitions pacedState) =
    [("a.example", 1301%Z); ("b.example", 1001%Z); ("a.example", 1001%Z)] /\
  Fetch.Paced (Fetch.acquisitions pacedState).
Proof.
  assert (Hrun : Fetch.run Fetch.initial pacedRun = Some pacedState)
    by (vm_compute; reflexivity).
  split; [exact Hrun|]. split; [vm_compute; reflexivity|].
  exact (proj1 (C3_host_pacing pacedRun pacedState Hrun)).
Defined.
